(** * Protovis: the Dot mark resolver and the ordinal scale

    A shallow embedding of [src/mark/Dot.js] (implied properties, anchors,
    hit-test primitive) and of the ordinal scale ([pv.Scale.ordinal]:
    invocation, domain setter, the split algorithms, [invertIndex]), with
    the properties stated about them.

    Numbers.  The source computes with JavaScript numbers.  They are
    modelled as the extended reals with a not-a-number element: finite
    values are exact real numbers (no rounding, no overflow, a single
    unsigned zero), and the special values follow IEEE 754, so that a
    division by zero yields an infinity or NaN and every comparison with
    NaN is false, as in the source language.

    Objects used as dictionaries ([i], [seen]) are finite maps and sets on
    the string form of the key; only own properties are modelled. *)

From Stdlib Require Import Reals Lra Lia.
From stdpp Require Import gmap strings list.

Local Open Scope R_scope.

(** ** Part I: definitions *)

(** *** JavaScript numbers and the values the two files handle *)

Module JS.

#[global] Instance Req_decision (x y : R) : Decision (x = y) := Req_dec_T x y.
#[global] Instance Rlt_decision (x y : R) : Decision (x < y) := Rlt_dec x y.
#[global] Instance Rle_decision (x y : R) : Decision (x <= y) := Rle_dec x y.

Inductive number : Type :=
  | NaN
  | PosInf
  | NegInf
  | Finite (x : R).

(** The infinity of the given sign ([true] is positive). *)
Definition inf (positive : bool) : number :=
  if positive then PosInf else NegInf.

Definition num_neg (a : number) : number :=
  match a with
  | NaN => NaN
  | PosInf => NegInf
  | NegInf => PosInf
  | Finite x => Finite (- x)
  end.

Definition num_add (a b : number) : number :=
  match a, b with
  | NaN, _ | _, NaN => NaN
  | PosInf, NegInf | NegInf, PosInf => NaN
  | PosInf, _ | _, PosInf => PosInf
  | NegInf, _ | _, NegInf => NegInf
  | Finite x, Finite y => Finite (x + y)
  end.

Definition num_sub (a b : number) : number := num_add a (num_neg b).

(** An infinity times a finite [x]: NaN at zero, else the product of signs. *)
Definition inf_times (positive : bool) (x : R) : number :=
  if bool_decide (x = 0) then NaN
  else inf (if bool_decide (0 < x) then positive else negb positive).

Definition num_mul (a b : number) : number :=
  match a, b with
  | NaN, _ | _, NaN => NaN
  | Finite x, Finite y => Finite (x * y)
  | PosInf, Finite x | Finite x, PosInf => inf_times true x
  | NegInf, Finite x | Finite x, NegInf => inf_times false x
  | PosInf, PosInf | NegInf, NegInf => PosInf
  | PosInf, NegInf | NegInf, PosInf => NegInf
  end.

Definition num_div (a b : number) : number :=
  match a, b with
  | NaN, _ | _, NaN => NaN
  | Finite x, Finite y =>
      if bool_decide (y = 0) then
        (if bool_decide (x = 0) then NaN else inf (bool_decide (0 < x)))
      else Finite (x / y)
  | Finite _, (PosInf | NegInf) => Finite 0
  | PosInf, Finite y => inf (bool_decide (0 <= y))
  | NegInf, Finite y => inf (negb (bool_decide (0 <= y)))
  | (PosInf | NegInf), (PosInf | NegInf) => NaN
  end.

(** [Math.sqrt] *)
Definition Math_sqrt (a : number) : number :=
  match a with
  | NaN | NegInf => NaN
  | PosInf => PosInf
  | Finite x => if bool_decide (x < 0) then NaN else Finite (sqrt x)
  end.

(** [Math.SQRT2] *)
Definition Math_SQRT2 : number := Finite (sqrt 2).

(** [Math.round]: the nearest integer, a tie going to the larger one. *)
Definition Math_round (a : number) : number :=
  match a with
  | Finite x => Finite (IZR (Zfloor (x + 1 / 2)))
  | _ => a
  end.

(** [a < b] *)
Definition num_lt (a b : number) : bool :=
  match a, b with
  | NaN, _ | _, NaN => false
  | Finite x, Finite y => bool_decide (x < y)
  | NegInf, NegInf | PosInf, _ | _, NegInf => false
  | NegInf, _ | _, PosInf => true
  end.

(** [a > b] *)
Definition num_gt (a b : number) : bool := num_lt b a.

(** [a === b] on numbers *)
Definition num_eq (a b : number) : bool :=
  match a, b with
  | Finite x, Finite y => bool_decide (x = y)
  | PosInf, PosInf | NegInf, NegInf => true
  | _, _ => false
  end.

(** [a >= b] *)
Definition num_ge (a b : number) : bool := num_eq a b || num_lt b a.

(** A number is truthy unless it is zero or NaN. *)
Definition number_truthy (a : number) : bool :=
  match a with
  | NaN => false
  | Finite x => negb (bool_decide (x = 0))
  | _ => true
  end.

(** A length or an index used as a number. *)
Definition num_of_nat (n : nat) : number := Finite (INR n).

(** The values a property slot holds: a number, or one of the two empty
    values. *)
Inductive value : Type :=
  | Undefined
  | Null
  | Num (n : number).

(** [v == null] *)
Definition is_nullish (v : value) : bool :=
  match v with
  | Num _ => false
  | _ => true
  end.

(** The conversion applied to the operands of arithmetic and comparison. *)
Definition ToNumber (v : value) : number :=
  match v with
  | Undefined => NaN
  | Null => Finite 0
  | Num n => n
  end.

Definition truthy (v : value) : bool :=
  match v with
  | Num n => number_truthy n
  | _ => false
  end.

(** [v === n] for a number literal [n] *)
Definition strict_eq_num (v : value) (n : number) : bool :=
  match v with
  | Num m => num_eq m n
  | _ => false
  end.

(** [a || b] *)
Definition or_else (a b : value) : value := if truthy a then a else b.

End JS.

Export JS.

Declare Scope js_scope.
Delimit Scope js_scope with js.
Bind Scope js_scope with number.
Infix "+" := num_add : js_scope.
Infix "-" := num_sub : js_scope.
Infix "*" := num_mul : js_scope.
Infix "/" := num_div : js_scope.
Notation "- a" := (num_neg a) : js_scope.
Infix "<?" := num_lt : js_scope.
Infix ">?" := num_gt : js_scope.
Infix ">=?" := num_ge : js_scope.
Infix "=?" := num_eq : js_scope.
Coercion Finite : R >-> number.

(** *** The Dot mark ([src/mark/Dot.js]) *)

Module Dot.

(** A scene instance: the property slots that the Dot code reads and
    writes. *)
Record scene : Type := Scene {
  shape : string;
  shapeRadius : value;
  shapeSize : value;
  aspectRatio : value;
  left : value;
  right : value;
  top : value;
  bottom : value;
  _width : value;
  _height : value
}.

Definition set_shapeRadius (v : value) (s : scene) : scene :=
  Scene (shape s) v (shapeSize s) (aspectRatio s)
        (left s) (right s) (top s) (bottom s) (_width s) (_height s).

Definition set_shapeSize (v : value) (s : scene) : scene :=
  Scene (shape s) (shapeRadius s) v (aspectRatio s)
        (left s) (right s) (top s) (bottom s) (_width s) (_height s).

Definition set_width (v : value) (s : scene) : scene :=
  Scene (shape s) (shapeRadius s) (shapeSize s) (aspectRatio s)
        (left s) (right s) (top s) (bottom s) v (_height s).

Definition set_height (v : value) (s : scene) : scene :=
  Scene (shape s) (shapeRadius s) (shapeSize s) (aspectRatio s)
        (left s) (right s) (top s) (bottom s) (_width s) v.

(** The local [a] of [buildImplied]: [s.aspectRatio || 1]. *)
Definition aspect (s : scene) : value := or_else (aspectRatio s) (Num 1).

(** The radius that [buildImplied] works with once the first block has
    run (its local [r]). *)
Definition resolved_radius (s : scene) : value :=
  if is_nullish (shapeRadius s) then
    if is_nullish (shapeSize s) then Num 4.5
    else Num (Math_sqrt (ToNumber (shapeSize s)))
  else shapeRadius s.

Section BuildImplied.

(** Modelled from the spec: [pv.Mark.prototype.buildImplied], the base
    resolution step that [buildImplied] ends with, is not part of the
    sources at hand; it resolves the implied properties that are not
    specific to the shape. *)
Variable mark_buildImplied : scene -> scene.

(** What the Dot code relies on from that step: it leaves the
    shape-specific slots as it finds them. *)
Definition keeps_shape : Prop :=
  forall s,
    shapeRadius (mark_buildImplied s) = shapeRadius s /\
    shapeSize (mark_buildImplied s) = shapeSize s /\
    _width (mark_buildImplied s) = _width s /\
    _height (mark_buildImplied s) = _height s.

(** [pv.Dot.prototype.buildImplied].  The locals [r] and [s] are threaded
    through the first block; the local [z] is not read after it. *)
Definition buildImplied (s : scene) : scene :=
  let r := shapeRadius s in
  let z := shapeSize s in
  let a := aspect s in
  let '(r, s) :=
    if is_nullish r then
      if is_nullish z then
        (Num 4.5, set_shapeRadius (Num 4.5) (set_shapeSize (Num 20.25) s))
      else
        let r := Num (Math_sqrt (ToNumber z)) in (r, set_shapeRadius r s)
    else if is_nullish z then
      (r, set_shapeSize (Num (ToNumber r * ToNumber r)) s)
    else (r, s) in
  let '(h, w) :=
    if strict_eq_num a 1 || (ToNumber a <? 0)%js then
      let w := (2 * ToNumber r)%js in (w, w)
    else
      let h := (2 * ToNumber r / Math_sqrt (ToNumber a))%js in
      (h, (ToNumber a * h)%js) in
  mark_buildImplied (set_width (Num w) (set_height (Num h) s)).

End BuildImplied.

(** The anchor's property functions.  Each one reads the host's resolved
    instance [this.scene.target[this.index]]; where the source dereferences
    it, a missing instance is an error ([None]). *)
Section Anchor.

Variable name : string.
Variable target : list scene.
Variable index : nat.

Definition anchor_left : option value :=
  let s := target !! index in
  if bool_decide (name = "bottom" \/ name = "top" \/ name = "center")
  then left <$> s
  else if bool_decide (name = "left") then Some Null
  else (fun s => Num (ToNumber (left s) + ToNumber (_width s) / 2)) <$> s.

Definition anchor_right : option value :=
  let s := target !! index in
  if bool_decide (name = "left")
  then (fun s => Num (ToNumber (right s) + ToNumber (_width s) / 2)) <$> s
  else Some Null.

Definition anchor_top : option value :=
  let s := target !! index in
  if bool_decide (name = "left" \/ name = "right" \/ name = "center")
  then top <$> s
  else if bool_decide (name = "top") then Some Null
  else (fun s => Num (ToNumber (top s) + ToNumber (_height s) / 2)) <$> s.

Definition anchor_bottom : option value :=
  let s := target !! index in
  if bool_decide (name = "top")
  then (fun s => Num (ToNumber (bottom s) + ToNumber (_height s) / 2)) <$> s
  else Some Null.

Definition anchor_textAlign : string :=
  if bool_decide (name = "left") then "right"
  else if bool_decide (name = "bottom" \/ name = "top" \/ name = "center")
  then "center"
  else "left".

Definition anchor_textBaseline : string :=
  if bool_decide (name = "right" \/ name = "left" \/ name = "center")
  then "middle"
  else if bool_decide (name = "bottom") then "top"
  else "bottom".

End Anchor.

(** The hit-test primitives [pv.Shape.Rect(x, y, dx, dy)] and
    [pv.Shape.Circle(x, y, radius)], as the constructor calls build them. *)
Inductive Shape : Type :=
  | Rect (x y dx dy : value)
  | Circle (x y radius : value).

(** [pv.Dot.prototype.getShapeCore]; [None] is the error of reading a
    property of a missing instance. *)
Definition getShapeCore (scenes : list scene) (index : nat) : option Shape :=
  s ← scenes !! index;
  let h := _width s in
  let w := _height s in
  let cx := left s in
  let cy := top s in
  let rect (w h : value) :=
    Rect (Num (ToNumber cx - ToNumber w / 2)) (Num (ToNumber cy - ToNumber h / 2)) w h in
  if bool_decide (shape s = "diamond") then
    let h := Num (ToNumber h * Math_SQRT2) in
    let w := Num (ToNumber w * Math_SQRT2) in
    Some (rect w h)
  else if bool_decide (shape s = "square" \/ shape s = "cross") then
    Some (rect w h)
  else
    Some (Circle cx cy (shapeRadius s)).

(** The centre of a rectangle, for stating where a primitive lies. *)
Definition rect_center (x y dx dy : number) : number * number :=
  ((x + dx / 2)%js, (y + dy / 2)%js).

(** Sample instances.  [unset_dot] declares neither radius nor size;
    [size_dot] only the size 16; [radius_dot] only the radius 3;
    [narrow_dot] the radius 4.5 with the aspect ratio 0.25;
    [flat_dot] the aspect ratio 0. *)
Definition unset_dot : scene :=
  Scene "circle" Undefined Undefined (Num 1)
        (Num 0) (Num 0) (Num 0) (Num 0) Undefined Undefined.

Definition size_dot : scene := set_shapeSize (Num 16) unset_dot.

Definition radius_dot : scene := set_shapeRadius (Num 3) unset_dot.

Definition narrow_dot : scene :=
  Scene "circle" (Num 4.5) Undefined (Num 0.25)
        (Num 0) (Num 0) (Num 0) (Num 0) Undefined Undefined.

Definition flat_dot : scene :=
  Scene "circle" (Num 4.5) Undefined (Num 0)
        (Num 0) (Num 0) (Num 0) (Num 0) Undefined Undefined.

(** A resolved host of extents 8 by 6, at 10 from the left and 20 from the
    top of a parent 100 wide and 100 high. *)
Definition host (shape : string) : scene :=
  Scene shape (Num (sqrt 12)) (Num 12) (Num (Finite (4 / 3)))
        (Num 10) (Num 90) (Num 20) (Num 80) (Num 8) (Num 6).



(** More sample instances: a declared size that is negative; a declared
    radius 2 beside a declared size 100, under the aspect ratio 4. *)
Definition negative_size_dot : scene := set_shapeSize (Num (Finite (-4))) unset_dot.

Definition both_declared_dot : scene :=
  Scene "square" (Num 2) (Num 100) (Num 4)
        (Num 10) (Num 90) (Num 20) (Num 80) Undefined Undefined.


End Dot.

(** *** The ordinal scale ([pv.Scale.ordinal]) *)

Module Ordinal.

(** The coercion of a domain value to a property key: [x in i], [i[x]] and
    [seen[o]] address the dictionary by the string form of the value. *)
Class ToString (V : Type) := to_key : V -> string.

(** The range [r]: an array of positions that also carries the scalar
    annotations [min], [max], [step], [band] and [margin]; an annotation
    that was never assigned reads [Undefined]. *)
Module Range.

Record t : Type := Make {
  items : list number;
  min : value;
  max : value;
  step : value;
  band : value;
  margin : value
}.

(** A fresh array, with no annotation yet. *)
Definition array (xs : list number) : t :=
  Make xs Undefined Undefined Undefined Undefined Undefined.

Definition set_min (v : value) (r : t) : t :=
  Make (items r) v (max r) (step r) (band r) (margin r).
Definition set_max (v : value) (r : t) : t :=
  Make (items r) (min r) v (step r) (band r) (margin r).
Definition set_step (v : value) (r : t) : t :=
  Make (items r) (min r) (max r) v (band r) (margin r).
Definition set_band (v : value) (r : t) : t :=
  Make (items r) (min r) (max r) (step r) v (margin r).
Definition set_margin (v : value) (r : t) : t :=
  Make (items r) (min r) (max r) (step r) (band r) v.

(** [r[k % r.length]] for an integer [k]; the remainder by a zero length
    is NaN, and the element at NaN is [Undefined]. *)
Definition get_mod (r : t) (k : nat) : value :=
  match length (items r) with
  | O => Undefined
  | S _ as L => from_option Num Undefined (items r !! (k mod L)%nat)
  end.

End Range.

(** Modelled from the spec: [pv.range(start, stop, step)] is not part of
    the sources at hand; it is the numeric range generation, an evenly
    spaced sequence [start], [start + step], ... that stops before [stop]
    (the end is exclusive: [pv.range(0, 100, 50)] is [0, 50]).  A zero step
    and non-finite arguments generate no position. *)
Definition pv_range (start stop step : number) : list number :=
  match start, stop, step with
  | Finite a, Finite b, Finite s =>
      if bool_decide (s = 0) then []
      else (fun k => Finite (a + s * INR k)) <$> seq 0 (Z.to_nat (Zceil ((b - a) / s)))
  | _, _, _ => []
  end.

(** Modelled from the spec: [pv.array(n, v)] is not part of the sources at
    hand; it is the array of [n] positions that all equal [v] (a zero-width
    range repeated [n] times). *)
Definition pv_array (n : nat) (v : number) : list number := replicate n v.

(** Modelled from the spec: [pv.map(array, f)] is not part of the sources
    at hand; it is the array mapping via an accessor. *)
Definition pv_map {A : Type} (array : list A) (f : A -> A) : list A := f <$> array.

(** The ways of calling [scale.domain] and [scale.range]: without
    arguments, with a series of values, with an array, or with an array
    and an accessor. *)
Inductive arguments (A : Type) : Type :=
  | NoArguments
  | Values (o : A) (os : list A)
  | AnArray (array : list A)
  | AnArrayBy (array : list A) (f : A -> A).

Arguments NoArguments {A}.
Arguments Values {A} o os.
Arguments AnArray {A} array.
Arguments AnArrayBy {A} array f.

(** The array that the two setters make of their arguments:
    [(array instanceof Array)
       ? ((arguments.length > 1) ? pv.map(array, f) : array)
       : Array.prototype.slice.call(arguments)]. *)
Definition arguments_array {A : Type} (args : arguments A) : list A :=
  match args with
  | AnArrayBy array f => pv_map array f
  | AnArray array => array
  | Values o os => o :: os
  | NoArguments => []
  end.

Section Scale.

Context {V : Type} `{ToString V}.

(** Modelled from the spec: [pv.numerate(keys)] is not part of the sources
    at hand; it assigns sequential integer indices to the first-seen
    unique values. *)
Definition pv_numerate (keys : list V) : gmap string nat :=
  list_to_map (imap (fun k x => (to_key x, k)) keys).

(** The closure variables of one scale: the domain [d], the index [i] and
    the range [r].  (The fourth variable, [band], is never read.) *)
Record state : Type := State {
  d : list V;
  i : gmap string nat;
  r : Range.t
}.

Definition set_r (r' : Range.t) (st : state) : state := State (d st) (i st) r'.

(** [var d = [], i = {}, r = []] *)
Definition init : state := State [] ∅ (Range.array []).

(** [function scale(x)]: the value returned and the state left. *)
Definition scale (x : V) (st : state) : value * state :=
  let st :=
    match i st !! to_key x with
    | Some _ => st
    | None => State (d st ++ [x]) (<[to_key x := length (d st)]> (i st)) (r st)
    end in
  (match i st !! to_key x with
   | Some k => Range.get_mod (r st) k
   | None => Undefined
   end, st).



(** The loop that filters the ordinals to their unique values: one step
    for the element [o], on the domain built so far and the keys seen. *)
Definition unique_step (acc : list V * gset string) (o : V) : list V * gset string :=
  let '(d, seen) := acc in
  if bool_decide (to_key o ∈ seen) then (d, seen)
  else (d ++ [o], {[to_key o]} ∪ seen).

Definition unique (array : list V) : list V :=
  fst (foldl unique_step ([], ∅) array).

(** [scale.domain]: with arguments it sets the domain and returns the
    scale ([None]); without, it returns the domain. *)
Definition domain (args : arguments V) (st : state) : option (list V) * state :=
  match args with
  | NoArguments => (Some (d st), st)
  | _ =>
      let array := arguments_array args in
      let d := unique array in
      (None, State d (pv_numerate d) (r st))
  end.

(** [scale.range], for range values that are numbers (a range of strings
    would first go through [pv.fillStyle]): with arguments it sets the
    range and returns the scale ([None]); without, it returns the range. *)
Definition range (args : arguments number) (st : state) : option Range.t * state :=
  match args with
  | NoArguments => (Some (r st), st)
  | _ =>
      let r := Range.array (arguments_array args) in
      let r := Range.set_min (from_option Num Undefined (Range.items r !! 0%nat)) r in
      let r := Range.set_max (from_option Num Undefined (last (Range.items r))) r in
      (None, set_r r st)
  end.

(** [pv.Scale.ordinal(...)]: the constructor applies [domain] to its
    arguments. *)
Definition ordinal (args : arguments V) : state := snd (domain args init).

(** [scale.split] *)
Definition split (min max : number) (st : state) : state :=
  let R := (max - min)%js in
  let N := length (d st) in
  let step : number := 0 in
  let '(step, r) :=
    if (R =? 0)%js then (step, Range.array (pv_array N min))
    else if bool_decide (N <> 0%nat) then
      let step := ((max - min) / num_of_nat N)%js in
      (step, Range.array (pv_range (min + step / 2) max step))
    else (step, r st) in
  set_r (Range.set_step (Num step) (Range.set_max (Num max) (Range.set_min (Num min) r))) st.

(** [scale.splitBandedCenter]; an omitted [band] is [Undefined]. *)
Definition splitBandedCenter (min max : number) (band : value) (st : state) : state :=
  let st := split min max st in
  let band := if is_nullish band then Num 1 else band in
  let r := r st in
  let r := Range.set_band (Num (ToNumber (Range.step r) * ToNumber band)) r in
  let r := Range.set_margin (Num (ToNumber (Range.step r) - ToNumber (Range.band r))) r in
  set_r (Range.set_max (Num max) (Range.set_min (Num min) r)) st.

(** [scale.splitBandedFlushCenter]; an omitted [band] is [Undefined]. *)
Definition splitBandedFlushCenter (min max : number) (band : value) (st : state) : state :=
  let band := ToNumber (if is_nullish band then Num 1 else band) in
  let R := (max - min)%js in
  let N := length (d st) in
  let zero : number := 0 in
  let '(S', B, M, r) :=
    if (R =? 0)%js then (zero, zero, zero, Range.array (pv_array N min))
    else if bool_decide (N <> 0%nat) then
      let B := (R * band / num_of_nat N)%js in
      let M := if bool_decide (1 < N)%nat
               then ((R - num_of_nat N * B) / (num_of_nat N - 1))%js else zero in
      let S' := (M + B)%js in
      (S', B, M, Range.array (pv_range (min + B / 2) max S'))
    else (zero, zero, zero, r st) in
  set_r (Range.set_max (Num max) (Range.set_min (Num min)
          (Range.set_margin (Num M) (Range.set_band (Num B)
            (Range.set_step (Num S') r))))) st.

(** [scale.splitFlush] *)
Definition splitFlush (min max : number) (st : state) : state :=
  let n := length (d st) in
  let step := ((max - min) / (num_of_nat n - 1))%js in
  let r :=
    if bool_decide (n = 1%nat) then Range.array [((min + max) / 2)%js]
    else Range.array (pv_range min (max + step / 2) step) in
  set_r (Range.set_max (Num max) (Range.set_min (Num min) r)) st.

(** [scale.splitBanded]; [band] is [None] when the call has fewer than
    three arguments. *)
Definition splitBanded (min max : number) (band : option value) (st : state) : state :=
  let band := ToNumber (default (Num 1) band) in
  let r :=
    if (band <? 0)%js then
      let n := num_of_nat (length (d st)) in
      let total := (- band * n)%js in
      let remaining := (max - min - total)%js in
      let padding := (remaining / (n + 1))%js in
      let r := Range.array (pv_range (min + padding) max (padding - band)) in
      Range.set_band (Num (- band)) r
    else
      let step := ((max - min) / (num_of_nat (length (d st)) + (1 - band)))%js in
      let r := Range.array (pv_range (min + step * (1 - band)) max step) in
      let r := Range.set_band (Num (step * band)) r in
      let r := Range.set_step (Num step) r in
      Range.set_margin (Num (step - ToNumber (Range.band r))) r in
  set_r (Range.set_max (Num max) (Range.set_min (Num min) r)) st.

(** [scale.invertIndex] *)
Definition invertIndex (y : number) (noRound : bool) (st : state) : number :=
  let N := length (d st) in
  if bool_decide (N = 0%nat) then Finite (-1)
  else
    let r := r st in
    let R := (ToNumber (Range.max r) - ToNumber (Range.min r))%js in
    if (R =? 0)%js then 0
    else
      let S' := (R / num_of_nat N)%js in
      if (y >=? ToNumber (Range.max r))%js then num_of_nat N
      else if (y <? ToNumber (Range.min r))%js then 0
      else
        let i := ((y - ToNumber (Range.min r)) / S')%js in
        if noRound then i else Math_round i.

(** The calls that act on a scale, and the state after a sequence of
    them. *)
Inductive call : Type :=
  | CallScale (x : V)
  | CallDomain (args : arguments V)
  | CallRange (args : arguments number)
  | CallSplit (min max : number)
  | CallSplitFlush (min max : number)
  | CallSplitBanded (min max : number) (band : option value)
  | CallSplitBandedCenter (min max : number) (band : value)
  | CallSplitBandedFlushCenter (min max : number) (band : value).

Definition run (st : state) (c : call) : state :=
  match c with
  | CallScale x => snd (scale x st)
  | CallDomain args => snd (domain args st)
  | CallRange args => snd (range args st)
  | CallSplit min max => split min max st
  | CallSplitFlush min max => splitFlush min max st
  | CallSplitBanded min max band => splitBanded min max band st
  | CallSplitBandedCenter min max band => splitBandedCenter min max band st
  | CallSplitBandedFlushCenter min max band => splitBandedFlushCenter min max band st
  end.


(** The specification's reading of the domain of a list of values: each
    value at its first occurrence, later values of the same key dropped. *)
Fixpoint first_seen (values : list V) : list V :=
  match values with
  | [] => []
  | x :: values => x :: filter (fun y => to_key y <> to_key x) (first_seen values)
  end.

(** The invariant of the scale state: the keys of the domain are pairwise
    distinct, and the index holds exactly the positions of the domain. *)
Definition consistent (st : state) : Prop :=
  NoDup (to_key <$> d st) /\
  forall (key : string) (k : nat),
    i st !! key = Some k <-> exists v, d st !! k = Some v /\ to_key v = key.

(** The scale invoked on a series of values, one after the other: the
    values returned, in order, and the state left. *)
Fixpoint scale_all (xs : list V) (st : state) : list value * state :=
  match xs with
  | [] => ([], st)
  | x :: xs =>
      let '(v, st) := scale x st in
      let '(vs, st) := scale_all xs st in
      (v :: vs, st)
  end.

End Scale.

Arguments state V : clear implicits.
Arguments call V : clear implicits.

(** The [n] positions [start], [start + step], ..., for stating what a
    split produces. *)
Definition evenly_spaced (start step : R) (n : nat) : list number :=
  (fun k => Finite (start + step * INR k)) <$> seq 0 n.

(** Strings are their own keys. *)
#[global] Instance string_ToString : ToString string := fun s => s.

(** Sample scales, over two and over four domain values. *)
Definition two_values : state string := ordinal (Values "a" ["b"]).

Definition four_values : state string := ordinal (AnArray ["a"; "b"; "c"; "d"]).


(** A scale over three domain values. *)
Definition three_values : state string := ordinal (Values "a" ["b"; "c"]).

End Ordinal.

(** ** Part II: properties *)

(** *** Numbers *)

Module JSFacts.

(** Strict equality of numbers is equality, except that NaN differs from
    itself. *)
Lemma num_eq_true (a b : number) : (a =? b)%js = true -> a = b.
Proof.
  destruct a, b; simpl; try discriminate; try reflexivity.
  intros Hxy. apply bool_decide_eq_true in Hxy. by subst.
Qed.

Lemma num_div_finite (x y : R) : y <> 0 -> (Finite x / Finite y)%js = Finite (x / y).
Proof. intros Hy. simpl. by rewrite bool_decide_eq_false_2. Qed.



(** The falsy values: zero, NaN and the two empty values. *)
Lemma falsy_values (v : value) :
  truthy v = false <-> v = Num 0 \/ v = Num NaN \/ is_nullish v = true.
Proof.
  split.
  - destruct v as [| | [| | | x]]; simpl; try discriminate; try tauto.
    case_bool_decide; [| discriminate]. subst. by left.
  - intros [-> | [-> | Hn]]; [simpl; by rewrite bool_decide_eq_true_2 | done |].
    by destruct v.
Qed.

(** [Math.round] returns an integer at distance at most one half. *)
Lemma Math_round_nearest (x : R) :
  exists z : Z, Math_round x = Finite (IZR z) /\ x - 1 / 2 < IZR z <= x + 1 / 2.
Proof.
  exists (Zfloor (x + 1 / 2)). split; [reflexivity |].
  pose proof (Zfloor_bound (x + 1 / 2)). lra.
Qed.

End JSFacts.

Import JSFacts.

(** *** The Dot mark *)

Module DotFacts.

Import Dot.

Lemma keeps_shape_id : keeps_shape (fun s => s).
Proof. by intros s. Qed.

Section BuildImplied.

Variable base : scene -> scene.
Hypothesis base_keeps_shape : keeps_shape base.

Lemma buildImplied_shapeRadius (s : scene) :
  shapeRadius (buildImplied base s) = resolved_radius s.
Proof.
  unfold buildImplied, resolved_radius.
  destruct (is_nullish (shapeRadius s)) eqn:Hr;
    destruct (is_nullish (shapeSize s)) eqn:Hz;
    destruct (strict_eq_num _ _ || _);
    by rewrite (proj1 (base_keeps_shape _)).
Qed.

Lemma buildImplied_shapeSize (s : scene) :
  shapeSize (buildImplied base s) =
    if is_nullish (shapeRadius s) then
      if is_nullish (shapeSize s) then Num 20.25 else shapeSize s
    else if is_nullish (shapeSize s)
         then Num (ToNumber (shapeRadius s) * ToNumber (shapeRadius s))
         else shapeSize s.
Proof.
  unfold buildImplied.
  destruct (is_nullish (shapeRadius s)) eqn:Hr;
    destruct (is_nullish (shapeSize s)) eqn:Hz;
    destruct (strict_eq_num _ _ || _);
    by rewrite (proj1 (proj2 (base_keeps_shape _))).
Qed.

(** The two branches that compute the extents, on the locals [r], [a]. *)
Lemma buildImplied_extents (s : scene) :
  let r := ToNumber (resolved_radius s) in
  let a := ToNumber (aspect s) in
  let s' := buildImplied base s in
  if strict_eq_num (aspect s) 1 || (a <? 0)%js
  then _height s' = Num (2 * r)%js /\ _width s' = Num (2 * r)%js
  else _height s' = Num (2 * r / Math_sqrt a)%js /\
       _width s' = Num (a * (2 * r / Math_sqrt a))%js.
Proof.
  unfold buildImplied, resolved_radius.
  destruct (is_nullish (shapeRadius s)) eqn:Hr;
    destruct (is_nullish (shapeSize s)) eqn:Hz;
    destruct (strict_eq_num _ _ || _); simpl;
    by rewrite (proj1 (proj2 (proj2 (base_keeps_shape _)))),
               (proj2 (proj2 (proj2 (base_keeps_shape _)))).
Qed.

(** C1.  Radius and size determine each other: with both unset the
    resolved radius is 4.5 and the resolved size 20.25; with only the
    size [z > 0] set the radius becomes [sqrt z] and the size stays;
    with only the radius [r > 0] set the size becomes [r * r] and the
    radius stays. *)
Theorem buildImplied_radius_size (s : scene) :
  let s' := buildImplied base s in
  (is_nullish (shapeRadius s) = true -> is_nullish (shapeSize s) = true ->
     shapeRadius s' = Num 4.5 /\ shapeSize s' = Num 20.25) /\
  (forall z : R, 0 < z ->
     is_nullish (shapeRadius s) = true -> shapeSize s = Num z ->
     shapeRadius s' = Num (Finite (sqrt z)) /\ shapeSize s' = Num z) /\
  (forall r : R, 0 < r ->
     shapeRadius s = Num r -> is_nullish (shapeSize s) = true ->
     shapeSize s' = Num (Finite (r * r)) /\ shapeRadius s' = Num r).
Proof.
  intros s'. subst s'.
  rewrite buildImplied_shapeRadius, buildImplied_shapeSize.
  unfold resolved_radius. split; [| split].
  - intros Hr Hz. by rewrite Hr, Hz.
  - intros z Hpos Hr Hz. rewrite Hr, Hz. simpl.
    by rewrite bool_decide_eq_false_2 by lra.
  - intros r Hpos Hr Hz. by rewrite Hr, Hz.
Qed.

(** A declared aspect ratio other than zero is the local [a]; an unset one
    makes it 1. *)
Lemma aspect_declared (s : scene) (a : R) :
  aspectRatio s = Num a -> a <> 0 -> aspect s = Num a.
Proof.
  intros Ha Hnz. unfold aspect, or_else. rewrite Ha. simpl.
  by rewrite bool_decide_eq_false_2.
Qed.

Lemma aspect_unset (s : scene) :
  is_nullish (aspectRatio s) = true -> aspect s = Num 1.
Proof. unfold aspect, or_else. by destruct (aspectRatio s). Qed.



(** C10.  A falsy aspect ratio (zero, NaN, or none at all) is treated
    as 1: the branch that divides by [sqrt a] is not taken, the width and
    the height are both twice the resolved radius, and they are finite
    whenever the radius is. *)
Theorem buildImplied_falsy_aspect (s : scene) :
  aspectRatio s = Num 0 \/ aspectRatio s = Num NaN \/
    is_nullish (aspectRatio s) = true ->
  let s' := buildImplied base s in
  aspect s = Num 1 /\
  _width s' = Num (2 * ToNumber (shapeRadius s'))%js /\
  _height s' = Num (2 * ToNumber (shapeRadius s'))%js /\
  (forall r : R, shapeRadius s' = Num r ->
     _width s' = Num (Finite (2 * r)) /\ _height s' = Num (Finite (2 * r))).
Proof.
  intros Hf%falsy_values s'.
  assert (Ha : aspect s = Num 1) by (unfold aspect, or_else; by rewrite Hf).
  pose proof (buildImplied_extents s) as He. fold s' in He.
  rewrite Ha in He.
  change (strict_eq_num (Num 1) 1) with (bool_decide (1 = 1)) in He.
  rewrite bool_decide_eq_true_2 in He by done. cbn [orb] in He.
  destruct He as [Hh Hw].
  subst s'. rewrite buildImplied_shapeRadius.
  split; [done | split; [done | split; [done |]]].
  intros r Hr. by rewrite Hw, Hh, Hr.
Qed.

End BuildImplied.

(** The instances of C1: the three ways of declaring radius and size. *)
Lemma buildImplied_radius_size_witness :
  (shapeRadius (buildImplied (fun s => s) unset_dot) = Num 4.5 /\
   shapeSize (buildImplied (fun s => s) unset_dot) = Num 20.25) /\
  (shapeRadius (buildImplied (fun s => s) size_dot) = Num (sqrt 16) /\
   shapeSize (buildImplied (fun s => s) size_dot) = Num 16) /\
  (shapeSize (buildImplied (fun s => s) radius_dot) = Num (Finite (3 * 3)) /\
   shapeRadius (buildImplied (fun s => s) radius_dot) = Num 3).
Proof.
  split; [| split].
  - apply (buildImplied_radius_size _ keeps_shape_id unset_dot); reflexivity.
  - apply (buildImplied_radius_size _ keeps_shape_id size_dot); [lra | reflexivity ..].
  - apply (buildImplied_radius_size _ keeps_shape_id radius_dot); [lra | reflexivity ..].
Defined.



(** The instance of C10: the aspect ratio 0 with the radius 4.5 gives the
    extents 9 by 9. *)
Lemma buildImplied_falsy_aspect_witness :
  _width (buildImplied (fun s => s) flat_dot) = Num 9 /\
  _height (buildImplied (fun s => s) flat_dot) = Num 9.
Proof.
  destruct (buildImplied_falsy_aspect _ keeps_shape_id flat_dot (or_introl eq_refl))
    as (_ & _ & _ & Hfinite).
  destruct (Hfinite 4.5) as [-> ->].
  { by rewrite (buildImplied_shapeRadius _ keeps_shape_id). }
  split; do 2 f_equal; lra.
Defined.

Section Anchors.

Variable target : list scene.
Variable index : nat.
Variable s : scene.
Hypothesis host_resolved : target !! index = Some s.

(** C3, as the code has it.  The anchor named top takes its [left] from
    the host, has neither [right] nor [top], is centred with the
    baseline at the bottom, and its [bottom] is the host's [bottom] plus
    half the host's height. *)
Theorem anchor_top_properties :
  anchor_left "top" target index = Some (left s) /\
  anchor_right "top" target index = Some Null /\
  anchor_top "top" target index = Some Null /\
  anchor_bottom "top" target index =
    Some (Num (ToNumber (bottom s) + ToNumber (_height s) / 2)%js) /\
  anchor_textAlign "top" = "center" /\
  anchor_textBaseline "top" = "bottom" /\
  (forall b h : R, bottom s = Num b -> _height s = Num h ->
     anchor_bottom "top" target index = Some (Num (Finite (b + h / 2)))).
Proof.
  unfold anchor_left, anchor_right, anchor_top, anchor_bottom.
  rewrite host_resolved.
  repeat (split; [reflexivity |]).
  intros b h Hb Hh. cbn [bool_decide decide_rel]. simpl fmap.
  rewrite Hb, Hh. simpl ToNumber.
  rewrite num_div_finite by lra. reflexivity.
Qed.

End Anchors.

(** The instance of C3 as corrected: a host whose [bottom] is 80 and whose
    height is 6 gives the top anchor the [bottom] 83. *)
Lemma anchor_top_properties_witness :
  anchor_left "top" [host "circle"] 0 = Some (Num 10) /\
  anchor_right "top" [host "circle"] 0 = Some Null /\
  anchor_top "top" [host "circle"] 0 = Some Null /\
  anchor_bottom "top" [host "circle"] 0 = Some (Num 83) /\
  anchor_textAlign "top" = "center" /\
  anchor_textBaseline "top" = "bottom".
Proof.
  pose proof (anchor_top_properties [host "circle"] 0 (host "circle") eq_refl)
    as (Hleft & Hright & Htop & _ & Halign & Hbaseline & Hbottom).
  repeat (split; [assumption |]).
  split; [| by split].
  rewrite (Hbottom 80 6 eq_refl eq_refl). do 3 f_equal. lra.
Defined.

(** C3 as stated fails: for the host at [top = 20] with the height 6 the
    top anchor's [bottom] is 83, which is not [top + 6 / 2 = 23]. *)
Lemma anchor_top_counterexample :
  let s := host "circle" in
  left s = Num 10 /\ top s = Num 20 /\ _width s = Num 8 /\ _height s = Num 6 /\
  anchor_bottom "top" [s] 0 <> Some (Num 23) /\
  anchor_bottom "top" [s] 0 <>
    Some (Num (ToNumber (top s) + ToNumber (_height s) / 2)%js).
Proof.
  repeat (split; [reflexivity |]).
  unfold anchor_bottom. simpl. rewrite !bool_decide_eq_false_2 by lra.
  split; intros [= Heq]; lra.
Qed.

Section ShapeCore.

Variable scenes : list scene.
Variable index : nat.
Variable s : scene.
Hypothesis instance_resolved : scenes !! index = Some s.

Variables l t w h : R.
Hypothesis s_left : left s = Num l.
Hypothesis s_top : top s = Num t.
Hypothesis s_width : _width s = Num w.
Hypothesis s_height : _height s = Num h.

(** C9.  For a square or a cross the primitive is the rectangle centred
    at [(left, top)] whose width is [_height] and whose height is
    [_width]; for a diamond it is that rectangle with both extents
    multiplied by [sqrt 2]; for every other shape it is the circle
    centred at [(left, top)] of radius [shapeRadius]. *)
Theorem getShapeCore_primitive :
  (shape s = "square" \/ shape s = "cross" ->
     exists x y : R,
       getShapeCore scenes index =
         Some (Rect (Num x) (Num y) (_height s) (_width s)) /\
       rect_center x y h w = (Finite l, Finite t)) /\
  (shape s = "diamond" ->
     exists x y : R,
       getShapeCore scenes index =
         Some (Rect (Num x) (Num y)
                    (Num (Finite (h * sqrt 2))) (Num (Finite (w * sqrt 2)))) /\
       rect_center x y (h * sqrt 2) (w * sqrt 2) = (Finite l, Finite t)) /\
  (shape s <> "square" -> shape s <> "cross" -> shape s <> "diamond" ->
     getShapeCore scenes index = Some (Circle (left s) (top s) (shapeRadius s))).
Proof.
  unfold getShapeCore. rewrite instance_resolved. cbn [mbind option_bind].
  split; [| split].
  - intros Hshape.
    rewrite bool_decide_eq_false_2 by (intros Hd; rewrite Hd in Hshape; by destruct Hshape).
    rewrite bool_decide_eq_true_2 by done.
    rewrite s_left, s_top, s_width, s_height. cbn [ToNumber].
    rewrite !num_div_finite by lra.
    exists (l - h / 2), (t - w / 2). split; [reflexivity |].
    unfold rect_center. rewrite !num_div_finite by lra.
    cbn [num_add]. f_equal; f_equal; lra.
  - intros Hshape. rewrite bool_decide_eq_true_2 by done.
    rewrite s_left, s_top, s_width, s_height. cbn [ToNumber].
    unfold Math_SQRT2. cbn [num_mul].
    rewrite !num_div_finite by lra.
    exists (l - h * sqrt 2 / 2), (t - w * sqrt 2 / 2). split; [reflexivity |].
    unfold rect_center. rewrite !num_div_finite by lra.
    cbn [num_add]. f_equal; f_equal; lra.
  - intros Hsq Hcr Hdi.
    rewrite !bool_decide_eq_false_2; [done | tauto | done].
Qed.

End ShapeCore.

(** The instances of C9 on the host of extents 8 by 6 at [(10, 20)]. *)
Lemma getShapeCore_primitive_witness :
  getShapeCore [host "square"] 0 = Some (Rect (Num 7) (Num 16) (Num 6) (Num 8)) /\
  getShapeCore [host "circle"] 0 = Some (Circle (Num 10) (Num 20) (Num (sqrt 12))).
Proof.
  split.
  - destruct (getShapeCore_primitive [host "square"] 0 (host "square") eq_refl
                10 20 8 6 eq_refl eq_refl eq_refl eq_refl)
      as ((x & y & -> & Hcenter) & _); [by left |].
    unfold rect_center in Hcenter. rewrite !num_div_finite in Hcenter by lra.
    injection Hcenter as Hx Hy.
    do 2 f_equal; do 2 f_equal; lra.
  - by apply (getShapeCore_primitive [host "circle"] 0 (host "circle") eq_refl
                10 20 8 6 eq_refl eq_refl eq_refl eq_refl).
Defined.

End DotFacts.

(** *** The ordinal scale *)

Module OrdinalFacts.

Import Ordinal.

(** **** The range generator *)

Lemma Zceil_INR (n : nat) : Zceil (INR n) = Z.of_nat n.
Proof. apply Zceil_eq. rewrite INR_IZR_INZ. lra. Qed.

(** An integer lies below the ceiling of [q] exactly when it lies below
    [q]. *)
Lemma lt_Zceil (k : nat) (q : R) : (k < Z.to_nat (Zceil q))%nat <-> INR k < q.
Proof.
  pose proof (Zceil_bound q) as [Hlo Hhi]. rewrite INR_IZR_INZ. split.
  - intros Hk. assert (Z.of_nat k <= Zceil q - 1)%Z as Hle by lia.
    apply IZR_le in Hle. rewrite minus_IZR in Hle. lra.
  - intros Hk. assert (IZR (Z.of_nat k) < IZR (Zceil q)) as Hlt by lra.
    apply lt_IZR in Hlt. lia.
Qed.

Lemma pv_range_finite (a b s : R) :
  s <> 0 ->
  pv_range a b s =
    (fun k => Finite (a + s * INR k)) <$> seq 0 (Z.to_nat (Zceil ((b - a) / s))).
Proof. intros Hs. unfold pv_range. by rewrite bool_decide_eq_false_2. Qed.

(** The positions are evenly spaced from [start]. *)
Lemma pv_range_lookup (start stop step x : number) (k : nat) :
  pv_range start stop step !! k = Some x ->
  exists a s : R, start = Finite a /\ step = Finite s /\ x = Finite (a + s * INR k).
Proof.
  destruct start as [| | |a], stop as [| | |b], step as [| | |s]; try done.
  unfold pv_range. case_bool_decide; [done |].
  rewrite list_lookup_fmap. intros Hk.
  destruct (seq _ _ !! k) as [j|] eqn:Hj; [| done].
  apply lookup_seq in Hj as [-> _]. simplify_eq/=. eauto.
Qed.

(** With an increasing step the positions are exactly those before [stop]:
    the end is exclusive. *)
Lemma pv_range_increasing (a b s : R) (k : nat) :
  0 < s -> (k < length (pv_range a b s))%nat <-> a + s * INR k < b.
Proof.
  intros Hs. rewrite pv_range_finite by lra. rewrite length_fmap, length_seq.
  rewrite lt_Zceil. split; intros Hk.
  - apply (Rmult_lt_compat_l s) in Hk; [| done].
    replace (s * ((b - a) / s)) with (b - a) in Hk by (field; lra). lra.
  - apply (Rmult_lt_reg_l s); [done |].
    replace (s * ((b - a) / s)) with (b - a) by (field; lra). lra.
Qed.

(** With a decreasing step they are exactly those after [stop]. *)
Lemma pv_range_decreasing (a b s : R) (k : nat) :
  s < 0 -> (k < length (pv_range a b s))%nat <-> a + s * INR k > b.
Proof.
  intros Hs. rewrite pv_range_finite by lra. rewrite length_fmap, length_seq.
  rewrite lt_Zceil. split; intros Hk.
  - apply (Rmult_lt_gt_compat_neg_l s) in Hk; [| done].
    replace (s * ((b - a) / s)) with (b - a) in Hk by (field; lra). lra.
  - apply (Rmult_lt_reg_l (- s)); [lra |].
    replace (- s * ((b - a) / s)) with (- (b - a)) by (field; lra). lra.
Qed.

(** When the interval holds a whole number [n] of steps, there are [n]
    positions. *)
Lemma pv_range_whole (a b s : R) (n : nat) :
  s <> 0 -> b - a = s * INR n ->
  pv_range a b s = (fun k => Finite (a + s * INR k)) <$> seq 0 n.
Proof.
  intros Hs Hn. rewrite pv_range_finite by done.
  replace ((b - a) / s) with (INR n) by (rewrite Hn; field; lra).
  by rewrite Zceil_INR, Nat2Z.id.
Qed.


(** No step, no position. *)
Lemma pv_range_zero_step (start stop : number) : pv_range start stop 0 = [].
Proof.
  destruct start, stop; try done. unfold pv_range.
  by rewrite bool_decide_eq_true_2.
Qed.

(** The ranges behind the specification's instances of [split],
    [splitFlush] and [splitBanded]. *)
Example pv_range_split :
  pv_range 12.5 100 25 = [Finite 12.5; Finite 37.5; Finite 62.5; Finite 87.5].
Proof.
  rewrite pv_range_finite by lra. rewrite (Zceil_eq 4) by lra.
  change (Z.to_nat 4) with 4%nat. cbn [seq fmap list_fmap INR].
  repeat first [lra | f_equal].
Qed.

Example pv_range_flush :
  pv_range 0 (100 + 50 / 2)%js 50 = [Finite 0; Finite 50; Finite 100].
Proof.
  rewrite num_div_finite by lra. cbn [num_add].
  rewrite pv_range_finite by lra. rewrite (Zceil_eq 3) by lra.
  change (Z.to_nat 3) with 3%nat. cbn [seq fmap list_fmap INR].
  repeat first [lra | f_equal].
Qed.

Example pv_range_banded : pv_range 0 100 50 = [Finite 0; Finite 50].
Proof.
  rewrite pv_range_finite by lra. rewrite (Zceil_eq 2) by lra.
  change (Z.to_nat 2) with 2%nat. cbn [seq fmap list_fmap INR].
  repeat first [lra | f_equal].
Qed.

(** **** The splits leave the domain and the index alone *)

Section Frame.

Context {V : Type} `{ToString V}.

Implicit Types st : state V.

Lemma split_frame st (min max : number) :
  d (split min max st) = d st /\ i (split min max st) = i st.
Proof. unfold split. by repeat case_match. Qed.

Lemma splitFlush_frame st (min max : number) :
  d (splitFlush min max st) = d st /\ i (splitFlush min max st) = i st.
Proof. done. Qed.

Lemma splitBanded_frame st (min max : number) (band : option value) :
  d (splitBanded min max band st) = d st /\ i (splitBanded min max band st) = i st.
Proof. done. Qed.

Lemma splitBandedCenter_frame st (min max : number) (band : value) :
  d (splitBandedCenter min max band st) = d st /\
  i (splitBandedCenter min max band st) = i st.
Proof. unfold splitBandedCenter. apply split_frame. Qed.

Lemma splitBandedFlushCenter_frame st (min max : number) (band : value) :
  d (splitBandedFlushCenter min max band st) = d st /\
  i (splitBandedFlushCenter min max band st) = i st.
Proof. unfold splitBandedFlushCenter. by repeat case_match. Qed.

End Frame.

(** **** The domain and its index *)

Section Domain.

Context {V : Type} `{ToString V}.

Implicit Types st : state V.
Implicit Types l array : list V.

(** Taking first occurrences commutes with a filter on the keys. *)
Lemma first_seen_filter (P : string -> Prop)
    `{forall y : V, Decision (P (to_key y))} l :
  first_seen (filter (fun y => P (to_key y)) l) =
    filter (fun y => P (to_key y)) (first_seen l).
Proof.
  induction l as [| x l IH]; [done |].
  rewrite filter_cons. destruct (decide (P (to_key x))) as [HP | HP].
  - cbn [first_seen]. rewrite filter_cons_True by done. f_equal.
    rewrite IH, !list_filter_filter. apply list_filter_iff. tauto.
  - cbn [first_seen]. rewrite filter_cons_False by done.
    rewrite IH, list_filter_filter. apply list_filter_iff.
    intros y. split; [| tauto]. intros Hy. split; [done |]. congruence.
Qed.

(** The loop of the setter, started on the domain [acc] with the keys
    [seen], appends the first occurrences of the keys not seen yet. *)
Lemma unique_loop l (acc : list V) (seen : gset string) :
  fst (foldl unique_step (acc, seen) l) =
    acc ++ first_seen (filter (fun y => to_key y ∉ seen) l).
Proof.
  revert acc seen. induction l as [| o l IH]; intros acc seen.
  - by rewrite app_nil_r.
  - cbn [foldl]. unfold unique_step at 2. rewrite filter_cons.
    case_bool_decide as Hseen.
    + destruct (decide (to_key o ∉ seen)); [done |]. apply IH.
    + destruct (decide (to_key o ∉ seen)); [| done].
      rewrite IH. cbn [first_seen]. rewrite <- app_assoc. cbn [app]. do 2 f_equal.
      rewrite (first_seen_filter (fun key => key ∉ {[to_key o]} ∪ seen)).
      rewrite (first_seen_filter (fun key => key ∉ seen)).
      rewrite list_filter_filter. apply list_filter_iff. intros y.
      by rewrite not_elem_of_union, not_elem_of_singleton.
Qed.

(** The setter's loop computes the domain in first-seen order. *)
Lemma unique_first_seen l : unique l = first_seen l.
Proof.
  unfold unique. rewrite unique_loop. cbn [app]. f_equal.
  induction l as [| x l IH]; [done |].
  rewrite filter_cons_True by set_solver. by f_equal.
Qed.

Lemma first_seen_keys l (x : V) : x ∈ first_seen l -> x ∈ l.
Proof.
  revert x. induction l as [| y l IH]; intros x; [done |].
  cbn [first_seen]. rewrite !elem_of_cons, list_elem_of_filter.
  intros [-> | [_ Hx]]; [by left | right; by apply IH].
Qed.

Lemma first_seen_NoDup l : NoDup (to_key <$> first_seen l).
Proof.
  induction l as [| x l IH]; [constructor |].
  cbn [first_seen fmap list_fmap]. constructor.
  - rewrite list_elem_of_fmap. intros (y & Hkey & Hy).
    apply list_elem_of_filter in Hy as [Hne _]. congruence.
  - eapply sublist_NoDup; [exact IH |]. apply fmap_sublist, sublist_filter.
Qed.

(** Every key of the input keeps a representative, the first one. *)
Lemma first_seen_complete l (x : V) :
  x ∈ l -> exists y, y ∈ first_seen l /\ to_key y = to_key x.
Proof.
  induction l as [| z l IH]; [by intros ?%elem_of_nil |].
  intros [-> | Hx]%elem_of_cons.
  - exists z. split; [apply list_elem_of_here | done].
  - destruct (decide (to_key x = to_key z)) as [Heq | Hne].
    + exists z. split; [apply list_elem_of_here | done].
    + destruct (IH Hx) as (y & Hy & Hkey). exists y. split; [| done].
      cbn [first_seen]. apply list_elem_of_further, list_elem_of_filter.
      split; [congruence | done].
Qed.

(** The index that [pv.numerate] builds for keys that are pairwise
    distinct. *)
Lemma pv_numerate_lookup l (key : string) (k : nat) :
  NoDup (to_key <$> l) ->
  pv_numerate l !! key = Some k <-> exists v, l !! k = Some v /\ to_key v = key.
Proof.
  intros Hnodup. unfold pv_numerate.
  rewrite <- elem_of_list_to_map.
  - rewrite elem_of_lookup_imap. split.
    + intros (j & v & [= -> ->] & Hv). eauto.
    + intros (v & Hv & <-). eauto.
  - rewrite fmap_imap.
    replace (imap (fun n => fst ∘ (fun x => (to_key x, n))) l) with (to_key <$> l); [done |].
    symmetry. apply (imap_const to_key).
Qed.

Lemma consistent_init : consistent (init : state V).
Proof.
  split; [constructor |]. intros key k. cbn. rewrite lookup_empty.
  split; [done |]. by intros (v & ? & _).
Qed.

Lemma consistent_domain (args : arguments V) st :
  consistent st -> consistent (snd (domain args st)).
Proof.
  intros Hst. destruct args as [| o os | array | array f]; [done | ..];
    (split; cbn [domain snd d i];
     [rewrite unique_first_seen; apply first_seen_NoDup
     | intros key k; apply pv_numerate_lookup;
       rewrite unique_first_seen; apply first_seen_NoDup]).
Qed.

Lemma consistent_scale (x : V) st :
  consistent st -> consistent (snd (scale x st)).
Proof.
  intros [Hnodup Hindex]. unfold scale.
  destruct (i st !! to_key x) as [k |] eqn:Hx; [done |].
  cbn [snd]. split; cbn [d i].
  - rewrite fmap_app. apply NoDup_app. split; [done |]. split; [| apply NoDup_singleton].
    intros key Hkey ->%list_elem_of_singleton.
    apply list_elem_of_fmap in Hkey as (v & Hv & [k Hk]%list_elem_of_lookup).
    assert (i st !! to_key x = Some k) as Hsome by (apply Hindex; eauto).
    congruence.
  - intros key k. rewrite lookup_insert. case_decide as Hkey.
    + subst key. split.
      * intros [= <-]. exists x. split; [| done].
        apply lookup_snoc_Some. by right.
      * intros (v & [[Hlt Hv] | [-> _]]%lookup_snoc_Some & Hkey); [| done].
        assert (i st !! to_key x = Some k) as Hsome by (apply Hindex; eauto).
        congruence.
    + rewrite Hindex. split.
      * intros (v & Hv & Hv'). exists v. split; [| done].
        apply lookup_snoc_Some. left. split; [| done]. by eapply lookup_lt_Some.
      * intros (v & [[Hlt Hv] | [-> <-]]%lookup_snoc_Some & Hv'); [eauto | done].
Qed.

Lemma consistent_run st (c : call V) : consistent st -> consistent (run st c).
Proof.
  intros Hst.
  destruct c as [x | args | args | min max | min max | min max band
                 | min max band | min max band]; cbn [run].
  - by apply consistent_scale.
  - by apply consistent_domain.
  - by destruct args.
  - unfold consistent. by rewrite !(proj1 (split_frame _ _ _)), !(proj2 (split_frame _ _ _)).
  - done.
  - done.
  - unfold consistent.
    by rewrite !(proj1 (splitBandedCenter_frame _ _ _ _)),
               !(proj2 (splitBandedCenter_frame _ _ _ _)).
  - unfold consistent.
    by rewrite !(proj1 (splitBandedFlushCenter_frame _ _ _ _)),
               !(proj2 (splitBandedFlushCenter_frame _ _ _ _)).
Qed.


End Domain.

(** **** Invocation *)

Section Invocation.

Context {V : Type} `{ToString V}.

Implicit Types st : state V.




End Invocation.



(** **** The domain after any sequence of calls *)

Section DomainInvariant.

Context {V : Type} `{ToString V}.


End DomainInvariant.


(** **** The banded split *)

Section Scale.

Context {V : Type} `{ToString V}.

Implicit Types st : state V.


End Scale.

(** **** The inverse lookup *)

Section Invert.

Context {V : Type} `{ToString V}.

Implicit Types st : state V.

(** C7.  [invertIndex] is a total function of the state, [y] and
    [noRound]; it goes through its cases in order: -1 on an empty domain; 0
    when [max - min] is zero; the domain length [N] when [y >= max]; 0 when
    [y < min]; otherwise [(y - min) / ((max - min) / N)], rounded to the
    nearest integer unless [noRound]. *)
Theorem invertIndex_cases st (y : number) (noRound : bool) :
  let N := length (d st) in
  let min := ToNumber (Range.min (r st)) in
  let max := ToNumber (Range.max (r st)) in
  (N = 0%nat -> invertIndex y noRound st = Finite (-1)) /\
  (N <> 0%nat -> (max - min =? 0)%js = true -> invertIndex y noRound st = Finite 0) /\
  (N <> 0%nat -> (max - min =? 0)%js = false -> (y >=? max)%js = true ->
     invertIndex y noRound st = Finite (INR N)) /\
  (N <> 0%nat -> (max - min =? 0)%js = false -> (y >=? max)%js = false ->
     (y <? min)%js = true -> invertIndex y noRound st = Finite 0) /\
  (N <> 0%nat -> (max - min =? 0)%js = false -> (y >=? max)%js = false ->
     (y <? min)%js = false ->
     let i := ((y - min) / ((max - min) / num_of_nat N))%js in
     invertIndex y noRound st = if noRound then i else Math_round i) /\
  (forall y' lo hi : R,
     N <> 0%nat -> y = Finite y' ->
     Range.min (r st) = Num lo -> Range.max (r st) = Num hi ->
     lo <= y' < hi ->
     let i := (y' - lo) / ((hi - lo) / INR N) in
     invertIndex y true st = Finite i /\
     exists z : Z,
       invertIndex y false st = Finite (IZR z) /\ i - 1 / 2 < IZR z <= i + 1 / 2).
Proof.
  intros N min max. unfold invertIndex. fold N min max.
  split; [intros ->; by rewrite bool_decide_eq_true_2 |].
  split; [intros HN ->; by rewrite bool_decide_eq_false_2 |].
  split; [intros HN -> ->; by rewrite bool_decide_eq_false_2 |].
  split; [intros HN -> -> ->; by rewrite bool_decide_eq_false_2 |].
  split; [intros HN -> -> ->; by rewrite bool_decide_eq_false_2 |].
  intros y' lo hi HN -> Hlo Hhi [Hge Hlt].
  set (i := (y' - lo) / ((hi - lo) / INR N)).
  subst min max. rewrite Hlo, Hhi. cbn [ToNumber].
  assert (HNpos : 0 < INR N) by (apply lt_0_INR; lia).
  assert (Hi : ((y' - lo) / ((hi - lo) / num_of_nat N))%js = Finite i).
  { unfold num_of_nat. cbn [num_sub num_add num_neg].
    rewrite (num_div_finite (hi + - lo)) by lra.
    rewrite num_div_finite.
    - reflexivity.
    - unfold Rdiv. apply Rmult_integral_contrapositive_currified; [lra |].
      apply Rinv_neq_0_compat. lra. }
  rewrite bool_decide_eq_false_2 by done.
  assert (Hzero : (hi - lo =? 0)%js = false).
  { cbn [num_sub num_add num_neg num_eq]. apply bool_decide_eq_false_2. lra. }
  assert (Hmax : (y' >=? hi)%js = false).
  { unfold num_ge. cbn [num_eq num_lt].
    rewrite !bool_decide_eq_false_2 by lra. reflexivity. }
  assert (Hmin : (y' <? lo)%js = false).
  { cbn [num_lt]. apply bool_decide_eq_false_2. lra. }
  rewrite Hzero, Hmax, Hmin, Hi.
  split; [reflexivity |]. apply Math_round_nearest.
Qed.

End Invert.

Lemma four_values_d : d four_values = ["a"; "b"; "c"; "d"]%string.
Proof. vm_compute. reflexivity. Qed.

(** The instances of C7 from the specification, on four values split over
    [0, 100]: 12 inverts to 0; 13, unrounded, to 0.52. *)
Lemma invertIndex_cases_witness :
  invertIndex 13 true (split 0 100 four_values) = Finite 0.52 /\
  invertIndex 12 false (split 0 100 four_values) = Finite 0.
Proof.
  set (st := split 0 100 four_values).
  assert (Hd : d st = d four_values) by apply split_frame.
  assert (Hmin : Range.min (r st) = Num 0).
  { subst st. unfold split. cbn [num_sub num_add num_neg num_eq].
    rewrite bool_decide_eq_false_2 by lra. by rewrite bool_decide_eq_true_2. }
  assert (Hmax : Range.max (r st) = Num 100).
  { subst st. unfold split. cbn [num_sub num_add num_neg num_eq].
    rewrite bool_decide_eq_false_2 by lra. by rewrite bool_decide_eq_true_2. }
  assert (HN : length (d st) <> 0%nat) by (rewrite Hd, four_values_d; simpl; lia).
  split.
  - destruct (invertIndex_cases st 13 true) as (_ & _ & _ & _ & _ & Hreal).
    destruct (Hreal 13 0 100 HN eq_refl Hmin Hmax) as [-> _]; [lra |].
    rewrite Hd, four_values_d. simpl. f_equal. lra.
  - destruct (invertIndex_cases st 12 false) as (_ & _ & _ & _ & _ & Hreal).
    destruct (Hreal 12 0 100 HN eq_refl Hmin Hmax) as [_ (z & -> & Hz)]; [lra |].
    rewrite Hd, four_values_d in Hz. simpl in Hz.
    assert (-1 < z < 1)%Z as Hz'.
    { split; [apply lt_IZR | apply lt_IZR]; lra. }
    by replace z with 0%Z by lia.
Defined.

(** **** The interval of zero width *)

Section Degenerate.

Context {V : Type} `{ToString V}.

Implicit Types st : state V.

Lemma num_sub_diag (m : R) : (Finite m - Finite m =? 0)%js = true.
Proof. cbn [num_sub num_add num_neg num_eq]. apply bool_decide_eq_true_2. lra. Qed.

(** [split], and with it [splitBandedCenter], guard the case: every
    position is [min]. *)
Lemma split_degenerate st (m : R) :
  Range.items (r (split m m st)) = replicate (length (d st)) (Finite m) /\
  Range.step (r (split m m st)) = Num 0.
Proof. unfold split. by rewrite num_sub_diag. Qed.

Lemma splitBandedCenter_degenerate st (m : R) (band : value) :
  Range.items (r (splitBandedCenter m m band st)) = replicate (length (d st)) (Finite m).
Proof. unfold splitBandedCenter. cbn. apply split_degenerate. Qed.

(** So does [splitBandedFlushCenter]. *)
Lemma splitBandedFlushCenter_degenerate st (m : R) (band : value) :
  Range.items (r (splitBandedFlushCenter m m band st)) =
    replicate (length (d st)) (Finite m).
Proof. unfold splitBandedFlushCenter. by rewrite num_sub_diag. Qed.

(** [splitFlush] has the case only for a single value. *)
Lemma splitFlush_degenerate_one st (m : R) :
  length (d st) = 1%nat -> Range.items (r (splitFlush m m st)) = [Finite m].
Proof.
  intros HN. unfold splitFlush. rewrite HN.
  rewrite bool_decide_eq_true_2 by done.
  cbn [num_add]. rewrite num_div_finite by lra.
  cbn. do 2 f_equal. lra.
Qed.

(** From two values on its step is zero and it generates no position. *)
Lemma splitFlush_degenerate st (m : R) :
  (2 <= length (d st))%nat -> Range.items (r (splitFlush m m st)) = [].
Proof.
  intros HN. unfold splitFlush.
  rewrite bool_decide_eq_false_2 by lia.
  assert (Hone : INR (length (d st)) + - (1) <> 0).
  { apply (le_INR 2) in HN. simpl in HN. lra. }
  unfold num_of_nat. cbn [num_sub num_add num_neg].
  rewrite num_div_finite by done.
  replace ((m + - m) / (INR (length (d st)) + - (1))) with 0 by (field; done).
  cbn [Range.items Range.set_max Range.set_min Range.set_band Range.set_step
       Range.set_margin Range.array r set_r].
  apply pv_range_zero_step.
Qed.

(** So does [splitBanded] with a fractional band. *)
Lemma splitBanded_degenerate st (m band : R) :
  0 <= band -> band <> INR (length (d st)) + 1 ->
  Range.items (r (splitBanded m m (Some (Num band)) st)) = [].
Proof.
  intros Hband Hdiv. unfold splitBanded.
  change (ToNumber (default (Num 1) (Some (Num band)))) with (Finite band).
  change (Finite band <? 0)%js with (bool_decide (band < 0)).
  rewrite bool_decide_eq_false_2 by lra.
  unfold num_of_nat. cbn [num_sub num_add num_neg].
  rewrite num_div_finite by lra.
  replace ((m + - m) / (INR (length (d st)) + (1 + - band))) with 0 by (field; lra).
  cbn [Range.items Range.set_max Range.set_min Range.set_band Range.set_step
       Range.set_margin Range.array r set_r].
  apply pv_range_zero_step.
Qed.

End Degenerate.

Lemma two_values_d : d two_values = ["a"; "b"]%string.
Proof. vm_compute. reflexivity. Qed.


(** C8, at the failing input.  On two domain values and the interval
    [5, 5], [split], [splitBandedCenter] and [splitBandedFlushCenter] give two
    positions equal to 5, but [splitFlush] and [splitBanded] give no
    position at all, and [splitBanded] with the fixed band width 1 gives two
    positions below 5. *)
Theorem split_zero_width_interval :
  Range.items (r (split 5 5 two_values)) = [Finite 5; Finite 5] /\
  Range.items (r (splitBandedCenter 5 5 Undefined two_values)) = [Finite 5; Finite 5] /\
  Range.items (r (splitBandedFlushCenter 5 5 Undefined two_values)) = [Finite 5; Finite 5] /\
  Range.items (r (splitFlush 5 5 two_values)) = [] /\
  Range.items (r (splitBanded 5 5 None two_values)) = [] /\
  Range.items (r (splitBanded 5 5 (Some (Num (Finite (-1)))) two_values)) =
    [Finite (5 - 2 / 3); Finite (5 - 1 / 3)].
Proof.
  split; [| split; [| split; [| split; [| split]]]].
  - rewrite (proj1 (split_degenerate _ _)). by rewrite two_values_d.
  - rewrite splitBandedCenter_degenerate. by rewrite two_values_d.
  - rewrite splitBandedFlushCenter_degenerate. by rewrite two_values_d.
  - apply splitFlush_degenerate. rewrite two_values_d. simpl. lia.
  - apply (splitBanded_degenerate two_values 5 1); [lra |].
    rewrite two_values_d. simpl. lra.
  - unfold splitBanded.
    change (ToNumber (default (Num 1) (Some (Num (Finite (-1)))))) with (Finite (-1)).
    change (Finite (-1) <? 0)%js with (bool_decide (-1 < 0)).
    rewrite bool_decide_eq_true_2 by lra.
    rewrite two_values_d. unfold num_of_nat.
    cbn [length INR num_sub num_add num_neg num_mul].
    rewrite num_div_finite by lra.
    cbn [length INR num_sub num_add num_neg num_mul Range.items Range.set_band
         Range.set_max Range.set_min Range.array r set_r].
    rewrite (pv_range_whole _ _ _ 2).
    + cbn [seq fmap list_fmap INR]. repeat f_equal; lra.
    + lra.
    + simpl. lra.
Qed.

End OrdinalFacts.


(** *** More on the Dot mark *)

Module DotExtra.

Import Dot DotFacts.

Section BuildImplied.

Variable base : scene -> scene.
Hypothesis base_keeps_shape : keeps_shape base.

(** The resolved radius is always a number. *)
Lemma resolved_radius_number (s : scene) : exists n, resolved_radius s = Num n.
Proof.
  unfold resolved_radius.
  destruct (shapeRadius s), (shapeSize s); simpl; eauto.
Qed.




(** Neither the Dot code nor a base step that keeps the aspect ratio
    changes it. *)
Lemma buildImplied_aspect (s : scene) :
  (forall s0, aspectRatio (base s0) = aspectRatio s0) ->
  aspect (buildImplied base s) = aspect s.
Proof.
  intros Hbase. unfold aspect at 1 2. f_equal. unfold buildImplied.
  destruct (is_nullish (shapeRadius s)), (is_nullish (shapeSize s)),
    (strict_eq_num _ _ || _); by rewrite Hbase.
Qed.

(** X3.  Building an instance that is already built changes none of the
    shape slots, provided the base step keeps the aspect ratio. *)
Theorem buildImplied_rebuild (s : scene) :
  (forall s0, aspectRatio (base s0) = aspectRatio s0) ->
  let s1 := buildImplied base s in
  let s2 := buildImplied base s1 in
  shapeRadius s2 = shapeRadius s1 /\ shapeSize s2 = shapeSize s1 /\
  _width s2 = _width s1 /\ _height s2 = _height s1.
Proof.
  intros Hbase s1 s2.
  assert (Hr1 : exists n, shapeRadius s1 = Num n).
  { subst s1. rewrite buildImplied_shapeRadius by done. apply resolved_radius_number. }
  assert (Hz1 : exists n, shapeSize s1 = Num n).
  { subst s1. rewrite buildImplied_shapeSize by done.
    destruct (shapeRadius s), (shapeSize s); simpl; eauto. }
  destruct Hr1 as [n Hn], Hz1 as [m Hm].
  assert (Hres : resolved_radius s1 = resolved_radius s).
  { unfold resolved_radius at 1. rewrite Hn. cbn [is_nullish].
    rewrite <- Hn. subst s1. by apply buildImplied_shapeRadius. }
  assert (Ha : aspect s1 = aspect s) by by apply buildImplied_aspect.
  pose proof (buildImplied_extents base base_keeps_shape s) as He.
  pose proof (buildImplied_extents base base_keeps_shape s1) as He1.
  fold s1 in He. fold s2 in He1. rewrite Hres, Ha in He1.
  cbv zeta in He, He1.
  split; [| split].
  - subst s2. rewrite buildImplied_shapeRadius by done. rewrite Hres.
    subst s1. symmetry. by apply buildImplied_shapeRadius.
  - subst s2. rewrite buildImplied_shapeSize by done. by rewrite Hn, Hm.
  - destruct (strict_eq_num (aspect s) 1 || _);
      destruct He as [-> ->], He1 as [-> ->]; done.
Qed.

(** X4.  A declared size that is negative is not refused: the radius and
    both extents become NaN, and the size stays as declared. *)
Theorem buildImplied_negative_size (s : scene) (z : R) :
  is_nullish (shapeRadius s) = true ->
  shapeSize s = Num z ->
  z < 0 ->
  let s' := buildImplied base s in
  shapeRadius s' = Num NaN /\ shapeSize s' = Num z /\
  _width s' = Num NaN /\ _height s' = Num NaN.
Proof.
  intros Hr Hz Hneg s'.
  assert (Hres : resolved_radius s = Num NaN).
  { unfold resolved_radius. rewrite Hr, Hz. cbn.
    by rewrite bool_decide_eq_true_2. }
  pose proof (buildImplied_extents base base_keeps_shape s) as He. fold s' in He.
  rewrite Hres in He. cbn [ToNumber] in He.
  split; [subst s'; by rewrite buildImplied_shapeRadius |].
  split; [subst s'; rewrite buildImplied_shapeSize by done; by rewrite Hr, Hz |].
  destruct (strict_eq_num _ _ || _).
  - by destruct He as [-> ->].
  - destruct He as [-> ->]. by destruct (ToNumber (aspect s)), (Math_sqrt _).
Qed.

(** X5.  A declared radius decides the extents: two instances with the
    same declared radius and aspect ratio get the same width and height
    whatever their sizes, and a declared size is kept even when it is not
    the square of the radius. *)
Theorem buildImplied_radius_wins (s t : scene) :
  is_nullish (shapeRadius s) = false ->
  shapeRadius t = shapeRadius s ->
  aspectRatio t = aspectRatio s ->
  _width (buildImplied base t) = _width (buildImplied base s) /\
  _height (buildImplied base t) = _height (buildImplied base s) /\
  shapeRadius (buildImplied base s) = shapeRadius s /\
  (is_nullish (shapeSize s) = false ->
     shapeSize (buildImplied base s) = shapeSize s).
Proof.
  intros Hdecl Hr Ha.
  assert (Hres : resolved_radius s = shapeRadius s).
  { unfold resolved_radius. by rewrite Hdecl. }
  assert (Hrest : resolved_radius t = shapeRadius s).
  { unfold resolved_radius. by rewrite Hr, Hdecl. }
  assert (Hasp : aspect t = aspect s) by (unfold aspect; by rewrite Ha).
  pose proof (buildImplied_extents base base_keeps_shape s) as He.
  pose proof (buildImplied_extents base base_keeps_shape t) as Het.
  cbv zeta in He, Het. rewrite Hres in He. rewrite Hrest, Hasp in Het.
  split; [| split; [| split]].
  - destruct (strict_eq_num _ _ || _);
      destruct He as [_ ->], Het as [_ ->]; done.
  - destruct (strict_eq_num _ _ || _);
      destruct He as [-> _], Het as [-> _]; done.
  - by rewrite buildImplied_shapeRadius.
  - intros Hz. rewrite buildImplied_shapeSize by done. by rewrite Hdecl, Hz.
Qed.




End BuildImplied.

Section Anchors.

Variable target : list scene.
Variable index : nat.
Variable s : scene.
Hypothesis host_resolved : target !! index = Some s.

Variables l r t b w h : R.
Hypothesis s_left : left s = Num l.
Hypothesis s_right : right s = Num r.
Hypothesis s_top : top s = Num t.
Hypothesis s_bottom : bottom s = Num b.
Hypothesis s_width : _width s = Num w.
Hypothesis s_height : _height s = Num h.

(** The four coordinates of an anchor on the resolved host, name by
    name. *)
Lemma anchor_coordinates (name : string) :
  anchor_left name target index =
    Some (if bool_decide (name = "bottom" \/ name = "top" \/ name = "center")
          then Num l
          else if bool_decide (name = "left") then Null
          else Num (Finite (l + w / 2))) /\
  anchor_right name target index =
    Some (if bool_decide (name = "left") then Num (Finite (r + w / 2)) else Null) /\
  anchor_top name target index =
    Some (if bool_decide (name = "left" \/ name = "right" \/ name = "center")
          then Num t
          else if bool_decide (name = "top") then Null
          else Num (Finite (t + h / 2))) /\
  anchor_bottom name target index =
    Some (if bool_decide (name = "top") then Num (Finite (b + h / 2)) else Null).
Proof.
  unfold anchor_left, anchor_right, anchor_top, anchor_bottom.
  rewrite host_resolved. cbn [fmap option_fmap option_map].
  rewrite s_left, s_right, s_top, s_bottom, s_width, s_height. cbn [ToNumber].
  rewrite !num_div_finite by lra. cbn [num_add].
  repeat split; repeat case_bool_decide; reflexivity.
Qed.

(** X6.  Whatever its name, an anchor on a resolved host defines exactly
    one coordinate of each opposing pair: [right] instead of [left] only
    for the name left, [bottom] instead of [top] only for the name top. *)
Theorem anchor_opposite_edges (name : string) :
  ((name = "left" /\ anchor_left name target index = Some Null /\
      exists x : R, anchor_right name target index = Some (Num x)) \/
   (name <> "left" /\ anchor_right name target index = Some Null /\
      exists x : R, anchor_left name target index = Some (Num x))) /\
  ((name = "top" /\ anchor_top name target index = Some Null /\
      exists y : R, anchor_bottom name target index = Some (Num y)) \/
   (name <> "top" /\ anchor_bottom name target index = Some Null /\
      exists y : R, anchor_top name target index = Some (Num y))).
Proof.
  destruct (anchor_coordinates name) as (-> & -> & -> & ->). split.
  - destruct (decide (name = "left")) as [-> | Hne].
    + left. split; [done |]. cbn. eauto.
    + right. split; [done |]. rewrite !(bool_decide_eq_false_2 (name = "left")) by done.
      split; [done |]. case_bool_decide; eauto.
  - destruct (decide (name = "top")) as [-> | Hne].
    + left. split; [done |]. cbn. eauto.
    + right. split; [done |]. rewrite !(bool_decide_eq_false_2 (name = "top")) by done.
      split; [done |]. case_bool_decide; eauto.
Qed.

(** X7.  A name that is none of the five is not refused: the anchor sits
    half the width to the right and half the height below the host's
    point, with the text aligned left on the bottom baseline. *)
Theorem anchor_unknown_name (name : string) :
  name <> "top" -> name <> "bottom" -> name <> "left" ->
  name <> "right" -> name <> "center" ->
  anchor_left name target index = Some (Num (Finite (l + w / 2))) /\
  anchor_right name target index = Some Null /\
  anchor_top name target index = Some (Num (Finite (t + h / 2))) /\
  anchor_bottom name target index = Some Null /\
  anchor_textAlign name = "left" /\
  anchor_textBaseline name = "bottom".
Proof.
  intros Htop Hbottom Hleft Hright Hcenter.
  destruct (anchor_coordinates name) as (-> & -> & -> & ->).
  unfold anchor_textAlign, anchor_textBaseline.
  rewrite !(bool_decide_eq_false_2 (name = "left")) by done.
  rewrite !(bool_decide_eq_false_2 (name = "top")) by done.
  rewrite !(bool_decide_eq_false_2 (name = "bottom")) by done.
  rewrite !bool_decide_eq_false_2 by tauto.
  done.
Qed.

(** X8.  In a parent of width [W = left + right] and height
    [H = top + bottom], the anchors named left, right, top and bottom are
    the midpoints of the sides of the box of the host's width and height
    centred on the host's point, each given from the parent's opposite
    edge, and the anchor named center is that point; the text is aligned
    away from the host. *)
Theorem anchor_box_midpoints (W H : R) :
  l + r = W -> t + b = H ->
  (exists x : R,
     anchor_right "left" target index = Some (Num x) /\ W - x = l - w / 2 /\
     anchor_top "left" target index = Some (Num t) /\
     anchor_textAlign "left" = "right" /\ anchor_textBaseline "left" = "middle") /\
  (anchor_left "right" target index = Some (Num (Finite (l + w / 2))) /\
   anchor_top "right" target index = Some (Num t) /\
   anchor_textAlign "right" = "left" /\ anchor_textBaseline "right" = "middle") /\
  (exists y : R,
     anchor_bottom "top" target index = Some (Num y) /\ H - y = t - h / 2 /\
     anchor_left "top" target index = Some (Num l) /\
     anchor_textAlign "top" = "center" /\ anchor_textBaseline "top" = "bottom") /\
  (anchor_top "bottom" target index = Some (Num (Finite (t + h / 2))) /\
   anchor_left "bottom" target index = Some (Num l) /\
   anchor_textAlign "bottom" = "center" /\ anchor_textBaseline "bottom" = "top") /\
  (anchor_left "center" target index = Some (Num l) /\
   anchor_top "center" target index = Some (Num t) /\
   anchor_textAlign "center" = "center" /\ anchor_textBaseline "center" = "middle").
Proof.
  intros HW HH.
  pose proof (anchor_coordinates "left") as (_ & Hlr & Hlt & _).
  pose proof (anchor_coordinates "right") as (Hrl & _ & Hrt & _).
  pose proof (anchor_coordinates "top") as (Htl & _ & _ & Htb).
  pose proof (anchor_coordinates "bottom") as (Hbl & _ & Hbt & _).
  pose proof (anchor_coordinates "center") as (Hcl & _ & Hct & _).
  split; [| split; [| split; [| split]]].
  - exists (r + w / 2). repeat split; try assumption; try reflexivity. lra.
  - repeat split; try assumption; reflexivity.
  - exists (b + h / 2). repeat split; try assumption; try reflexivity. lra.
  - repeat split; try assumption; reflexivity.
  - repeat split; try assumption; reflexivity.
Qed.

End Anchors.






(** The instance of X3. *)
Lemma buildImplied_rebuild_witness :
  _width (buildImplied (fun s => s) (buildImplied (fun s => s) narrow_dot)) =
    _width (buildImplied (fun s => s) narrow_dot) /\
  shapeSize (buildImplied (fun s => s) (buildImplied (fun s => s) narrow_dot)) =
    shapeSize (buildImplied (fun s => s) narrow_dot).
Proof.
  destruct (buildImplied_rebuild _ keeps_shape_id narrow_dot (fun s0 => eq_refl))
    as (_ & Hsize & Hwidth & _).
  by split.
Defined.

(** The instance of X4: the declared size -4. *)
Lemma buildImplied_negative_size_witness :
  shapeRadius (buildImplied (fun s => s) negative_size_dot) = Num NaN /\
  _width (buildImplied (fun s => s) negative_size_dot) = Num NaN.
Proof.
  assert (Hneg : -4 < 0) by lra.
  destruct (buildImplied_negative_size _ keeps_shape_id negative_size_dot (-4)
              eq_refl eq_refl Hneg) as (Hr & _ & Hw & _).
  by split.
Defined.

(** The instance of X5: the radius 2 beside the size 100, and beside no
    size at all. *)
Lemma buildImplied_radius_wins_witness :
  _width (buildImplied (fun s => s) (set_shapeSize Undefined both_declared_dot)) =
    _width (buildImplied (fun s => s) both_declared_dot) /\
  shapeSize (buildImplied (fun s => s) both_declared_dot) = Num 100.
Proof.
  destruct (buildImplied_radius_wins _ keeps_shape_id both_declared_dot
              (set_shapeSize Undefined both_declared_dot) eq_refl eq_refl eq_refl)
    as (Hw & _ & _ & Hsize).
  split; [exact Hw | by apply Hsize].
Defined.




(** The instance of X6, on the anchor named left. *)
Lemma anchor_opposite_edges_witness :
  anchor_left "left" [host "circle"] 0 = Some Null /\
  exists x : R, anchor_right "left" [host "circle"] 0 = Some (Num x).
Proof.
  destruct (anchor_opposite_edges [host "circle"] 0 (host "circle") eq_refl
              10 90 20 80 8 6 eq_refl eq_refl eq_refl eq_refl eq_refl eq_refl "left")
    as [[(_ & Hl & Hr) | (Hne & _)] _]; [by split | done].
Defined.

(** The instance of X7, on a name that is not an anchor's. *)
Lemma anchor_unknown_name_witness :
  anchor_left "middle" [host "circle"] 0 = Some (Num (Finite (10 + 8 / 2))) /\
  anchor_textAlign "middle" = "left".
Proof.
  destruct (anchor_unknown_name [host "circle"] 0 (host "circle") eq_refl
              10 90 20 80 8 6 eq_refl eq_refl eq_refl eq_refl eq_refl eq_refl "middle")
    as (Hl & _ & _ & _ & Halign & _); try discriminate.
  by split.
Defined.

(** The instance of X8, in the parent 100 wide and 100 high. *)
Lemma anchor_box_midpoints_witness :
  exists x : R,
    anchor_right "left" [host "circle"] 0 = Some (Num x) /\ 100 - x = 10 - 8 / 2.
Proof.
  assert (HW : 10 + 90 = 100) by lra. assert (HH : 20 + 80 = 100) by lra.
  destruct (anchor_box_midpoints [host "circle"] 0 (host "circle") eq_refl
              10 90 20 80 8 6 eq_refl eq_refl eq_refl eq_refl eq_refl eq_refl
              100 100 HW HH) as ((x & Hx & Hmid & _) & _).
  exists x. by split.
Defined.

End DotExtra.


(** *** More on the ordinal scale *)

Module OrdinalExtra.

Import Ordinal OrdinalFacts.

(** **** Invocation and the domain *)

Section Invocation.

Context {V : Type} `{ToString V}.

Implicit Types st : state V.


(** The two branches of an invocation. *)
Lemma scale_Some st (x : V) (k : nat) :
  i st !! to_key x = Some k -> scale x st = (Range.get_mod (r st) k, st).
Proof. intros Hk. unfold scale. by rewrite !Hk. Qed.

Lemma scale_None st (x : V) :
  i st !! to_key x = None ->
  scale x st =
    (Range.get_mod (r st) (length (d st)),
     State (d st ++ [x]) (<[to_key x := length (d st)]> (i st)) (r st)).
Proof. intros Hk. unfold scale. rewrite Hk. cbn [i r]. by rewrite lookup_insert_eq. Qed.

(** The invocation on a value of the domain. *)
Lemma scale_known_value st (v : V) (k : nat) :
  consistent st -> d st !! k = Some v ->
  scale v st = (Range.get_mod (r st) k, st).
Proof.
  intros [_ Hindex] Hk. unfold scale.
  assert (Hi : i st !! to_key v = Some k) by (apply Hindex; eauto).
  by rewrite !Hi.
Qed.

Lemma get_mod_in_range (rg : Range.t) (k : nat) (y : number) :
  Range.items rg !! k = Some y -> Range.get_mod rg k = Num y.
Proof.
  intros Hy. unfold Range.get_mod.
  pose proof (lookup_lt_Some _ _ _ Hy) as Hlt.
  destruct (length (Range.items rg)) as [| n] eqn:Hlen; [lia |].
  rewrite Nat.mod_small by lia. by rewrite Hy.
Qed.

(** X10.  Invoking the scale again on the same value returns the same
    range value and leaves the state as the first invocation left it. *)
Theorem scale_twice (x : V) st : scale x (snd (scale x st)) = scale x st.
Proof.
  destruct (i st !! to_key x) as [k |] eqn:Hx.
  - rewrite (scale_Some st x k Hx). cbn [snd]. by apply scale_Some.
  - rewrite (scale_None st x Hx). cbn [snd].
    rewrite (scale_Some _ x (length (d st))); [done |].
    cbn [i]. apply lookup_insert_eq.
Qed.


(** X12.  Pairwise mapping, with recycling: once the range is set to the
    values [vs], not empty, the domain value at position [k] is mapped to
    the range value at position [k] modulo the length of [vs], which is
    position [k] itself while the range is at least as long as the
    domain; the invocation changes nothing. *)
Theorem scale_pairwise (vs : list number) (v : V) (k : nat) st :
  consistent st ->
  d st !! k = Some v ->
  vs <> [] ->
  let st' := snd (range (AnArray vs) st) in
  exists y : number,
    vs !! (k mod length vs)%nat = Some y /\
    (k < length vs -> vs !! k = Some y)%nat /\
    scale v st' = (Num y, st').
Proof.
  intros Hst Hv Hvs st'.
  assert (Hlen : (0 < length vs)%nat) by (destruct vs; [done | cbn; lia]).
  destruct (lookup_lt_is_Some_2 vs (k mod length vs)) as [y Hy].
  { apply Nat.mod_upper_bound. lia. }
  exists y. split; [done |]. split.
  - intros Hk. by rewrite Nat.mod_small in Hy.
  - rewrite (scale_known_value st' v k); [| done | done].
    f_equal. unfold Range.get_mod.
    change (Range.items (r st')) with vs.
    destruct (length vs) as [| n] eqn:Hn; [lia |]. by rewrite Hy.
Qed.

(** The first occurrences of values of pairwise distinct keys are the
    values. *)
Lemma first_seen_NoDup_id (l : list V) : NoDup (to_key <$> l) -> first_seen l = l.
Proof.
  induction l as [| x l IH]; [done |].
  cbn [fmap list_fmap first_seen]. intros [Hx Hl]%NoDup_cons.
  rewrite IH by done. f_equal.
  clear IH Hl. induction l as [| y l IH]; [done |].
  cbn [fmap list_fmap] in Hx. apply not_elem_of_cons in Hx as [Hne Hx].
  rewrite filter_cons_True by done. f_equal. by apply IH.
Qed.

(** X13.  Setting the domain to the domain that the getter returns changes
    nothing. *)
Theorem domain_get_set st :
  consistent st ->
  forall current, fst (domain NoArguments st) = Some current ->
  snd (domain (AnArray current) st) = st.
Proof.
  intros [Hnodup Hindex] current [= <-]. cbn [domain snd arguments_array].
  rewrite unique_first_seen, first_seen_NoDup_id by done.
  destruct st as [dom idx rg]. cbn [d i r] in *. f_equal.
  apply map_eq. intros key. apply option_eq. intros k.
  by rewrite pv_numerate_lookup, Hindex.
Qed.

(** X24.  Only an invocation and the domain setter change the domain or
    the index: the domain getter, the range setter and getter and the five
    splits leave both as they are. *)
Theorem domain_untouched st (c : call V) :
  (forall x, c <> CallScale x) ->
  (forall args, args <> NoArguments -> c <> CallDomain args) ->
  d (run st c) = d st /\ i (run st c) = i st.
Proof.
  intros Hscale Hdomain.
  destruct c as [x | args | args | min max | min max | min max band
                 | min max band | min max band]; cbn [run].
  - by destruct (Hscale x).
  - destruct args as [| o os | array | array f]; [done | ..];
      (exfalso; eapply Hdomain; [| reflexivity]; discriminate).
  - by destruct args.
  - apply split_frame.
  - apply splitFlush_frame.
  - apply splitBanded_frame.
  - apply splitBandedCenter_frame.
  - apply splitBandedFlushCenter_frame.
Qed.

(** X25.  Invocations only ever grow the domain at its end, and never
    change an index that is assigned. *)
Theorem scale_all_grows (xs : list V) st :
  d st `prefix_of` d (snd (scale_all xs st)) /\
  i st ⊆ i (snd (scale_all xs st)).
Proof.
  revert st. induction xs as [| x xs IH]; intros st; [done |].
  cbn [scale_all]. destruct (scale x st) as [v st'] eqn:Hx.
  specialize (IH st'). destruct (scale_all xs st') as [vs st''].
  cbn [snd] in *. destruct IH as [Hd Hi].
  assert (Hstep : d st `prefix_of` d st' /\ i st ⊆ i st').
  { unfold scale in Hx. destruct (i st !! to_key x) as [k |] eqn:Hk.
    - by injection Hx as _ <-.
    - injection Hx as _ <-. cbn [d i]. split.
      + by apply prefix_app_r.
      + by apply insert_subseteq. }
  destruct Hstep as [Hd' Hi']. split; by etrans.
Qed.


End Invocation.

(** **** Evenly spaced positions *)


Lemma evenly_spaced_lookup (start step : R) (n k : nat) :
  (k < n)%nat -> evenly_spaced start step n !! k = Some (Finite (start + step * INR k)).
Proof.
  intros Hk. unfold evenly_spaced. rewrite list_lookup_fmap.
  by rewrite lookup_seq_lt.
Qed.



(** The range generator yields [n] positions when the interval holds more
    than [n - 1] and at most [n] steps. *)
Lemma pv_range_count (a b s : R) (n : nat) :
  s <> 0 -> INR n - 1 < (b - a) / s <= INR n ->
  pv_range a b s = evenly_spaced a s n.
Proof.
  intros Hs Hq. rewrite pv_range_finite by done. unfold evenly_spaced.
  rewrite (Zceil_eq (Z.of_nat n)) by (by rewrite <- INR_IZR_INZ).
  by rewrite Nat2Z.id.
Qed.

(** **** The splits in general *)

Section Splits.

Context {V : Type} `{ToString V}.

Implicit Types st : state V.

(** The range that [split] leaves on [N >= 1] values. *)
Lemma split_range st (min max : R) :
  (1 <= length (d st))%nat -> min <> max ->
  let N := length (d st) in
  let step := (max - min) / INR N in
  r (split min max st) =
    Range.set_step (Num step) (Range.set_max (Num max) (Range.set_min (Num min)
      (Range.array (evenly_spaced (min + step / 2) step N)))).
Proof.
  intros HN Hne N step.
  assert (HNpos : 1 <= INR N) by (apply (le_INR 1); subst N; lia).
  unfold split. fold N.
  cbn [num_sub num_add num_neg num_eq].
  rewrite bool_decide_eq_false_2 by lra.
  rewrite bool_decide_eq_true_2 by lia.
  unfold num_of_nat. rewrite num_div_finite by lra.
  rewrite num_div_finite by lra. cbn [num_add r set_r].
  rewrite (pv_range_count _ _ _ N).
  - reflexivity.
  - unfold Rdiv. apply Rmult_integral_contrapositive_currified; [lra |].
    apply Rinv_neq_0_compat. lra.
  - replace ((max - (min + (max + - min) / INR N / 2)) / ((max + - min) / INR N))
      with (INR N - 1 / 2) by (field; lra).
    lra.
Qed.






(** The range that [splitBandedFlushCenter] leaves on a single value. *)
Lemma splitBandedFlushCenter_single_range st (min max band : R) :
  length (d st) = 1%nat -> min < max -> 0 < band <= 1 ->
  let B := (max - min) * band in
  r (splitBandedFlushCenter min max (Num band) st) =
    Range.set_max (Num max) (Range.set_min (Num min)
      (Range.set_margin (Num (Finite 0)) (Range.set_band (Num B)
        (Range.set_step (Num B)
          (Range.array (pv_range (Finite (min + B / 2)) max B)))))).
Proof.
  intros HN Hlt [Hb0 Hb1] B.
  unfold splitBandedFlushCenter. rewrite HN. cbn [is_nullish ToNumber].
  cbn [num_sub num_add num_neg num_eq].
  rewrite bool_decide_eq_false_2 by lra.
  rewrite bool_decide_eq_true_2 by lia.
  rewrite bool_decide_eq_false_2 by lia.
  unfold num_of_nat. cbn [num_mul INR].
  rewrite (num_div_finite ((max + - min) * band)) by lra.
  rewrite num_div_finite by lra. cbn [num_add r set_r].
  assert (HB : (max + - min) * band / 1 = B) by (subst B; field).
  rewrite !HB. replace (0 + B) with B by lra. reflexivity.
Qed.

(** X27.  [splitBandedFlushCenter] on a single domain value, [min < max]
    and a band fraction in (0, 1]: the band has the width
    [B = (max - min) band], there is no margin, and the first position
    is [min + B / 2].  It is the only position exactly when the band
    fraction is at least two thirds; below, the range holds more
    positions than the domain has values. *)
Theorem splitBandedFlushCenter_single_value st (min max band : R) :
  length (d st) = 1%nat -> min < max -> 0 < band <= 1 ->
  let B := (max - min) * band in
  let rg := r (splitBandedFlushCenter min max (Num band) st) in
  Range.band rg = Num B /\ Range.margin rg = Num (Finite 0) /\
  Range.step rg = Num B /\
  Range.items rg !! 0%nat = Some (Finite (min + B / 2)) /\
  (2 / 3 <= band -> Range.items rg = [Finite (min + B / 2)]) /\
  (band < 2 / 3 -> (2 <= length (Range.items rg))%nat).
Proof.
  intros HN Hlt Hband B rg. subst rg.
  rewrite (splitBandedFlushCenter_single_range st min max band HN Hlt Hband).
  fold B.
  cbn [Range.items Range.step Range.band Range.margin Range.set_step
       Range.set_max Range.set_min Range.set_band Range.set_margin Range.array].
  destruct Hband as [Hb0 Hb1].
  assert (HB : 0 < B) by (subst B; nra).
  set (q := (max - (min + B / 2)) / B).
  assert (Hq : q * B = max - min - B / 2) by (subst q; field; lra).
  assert (Hq0 : 0 < q).
  { apply (Rmult_lt_reg_r B); [done |]. subst B. nra. }
  assert (Hone : 2 / 3 <= band -> pv_range (Finite (min + B / 2)) max B
                                  = [Finite (min + B / 2)]).
  { intros Hwide. rewrite (pv_range_count _ _ _ 1).
    - unfold evenly_spaced. cbn [seq fmap list_fmap INR]. do 2 f_equal. lra.
    - lra.
    - fold q. cbn [INR]. split; [lra |].
      apply (Rmult_le_reg_r B); [done |]. subst B. nra. }
  split; [done |]. split; [done |]. split; [done |]. split; [| split; [done |]].
  - rewrite pv_range_finite by lra. fold q.
    rewrite list_lookup_fmap.
    rewrite (lookup_seq_lt 0 _ 0) by (apply lt_Zceil; cbn [INR]; lra).
    change (0 + 0)%nat with 0%nat.
    cbn [fmap option_fmap option_map INR]. do 2 f_equal. lra.
  - intros Hnarrow. rewrite pv_range_finite by lra. fold q.
    rewrite length_fmap, length_seq.
    apply (proj2 (lt_Zceil 1 q)). cbn [INR].
    apply (Rmult_lt_reg_r B); [done |]. subst B. nra.
Qed.

(** X28.  On an empty domain and an interval of distinct ends, [split]
    and [splitBandedFlushCenter] generate no range: the positions of the
    earlier range stay, and only the annotations are written, with a
    zero step.  After [split], an earlier band and margin stay as
    well. *)
Theorem split_empty_domain st (min max : R) (band : value) :
  d st = [] -> min <> max ->
  (let rg := r (split min max st) in
   Range.items rg = Range.items (r st) /\
   Range.band rg = Range.band (r st) /\
   Range.margin rg = Range.margin (r st) /\
   Range.step rg = Num (Finite 0) /\
   Range.min rg = Num min /\ Range.max rg = Num max) /\
  (let rg := r (splitBandedFlushCenter min max band st) in
   Range.items rg = Range.items (r st) /\
   Range.band rg = Num (Finite 0) /\
   Range.margin rg = Num (Finite 0) /\
   Range.step rg = Num (Finite 0) /\
   Range.min rg = Num min /\ Range.max rg = Num max).
Proof.
  intros Hd Hne. split.
  - unfold split. rewrite Hd. cbn [length num_sub num_add num_neg num_eq].
    rewrite bool_decide_eq_false_2 by lra.
    rewrite (bool_decide_eq_false_2 (0%nat <> 0%nat)) by (intros Hz; by apply Hz).
    done.
  - unfold splitBandedFlushCenter. rewrite Hd.
    cbn [length num_sub num_add num_neg num_eq].
    rewrite bool_decide_eq_false_2 by lra.
    rewrite (bool_decide_eq_false_2 (0%nat <> 0%nat)) by (intros Hz; by apply Hz).
    done.
Qed.




(** A split changes neither the domain nor the index, so it keeps the
    state consistent. *)
Lemma consistent_split st (min max : number) :
  consistent st -> consistent (split min max st).
Proof. apply (consistent_run st (CallSplit min max)). Qed.

(** X19.  After [split], the scale maps the domain value at position [k]
    to the [k]-th point, [min + step / 2 + k step], and the invocation
    changes nothing. *)
Theorem scale_after_split st (min max : R) (v : V) (k : nat) :
  consistent st -> d st !! k = Some v -> min <> max ->
  let step := (max - min) / INR (length (d st)) in
  let st' := split min max st in
  scale v st' = (Num (Finite (min + step / 2 + step * INR k)), st').
Proof.
  intros Hst Hk Hne step st'.
  pose proof (lookup_lt_Some _ _ _ Hk) as Hlt.
  assert (HN : (1 <= length (d st))%nat) by lia.
  assert (Hk' : d st' !! k = Some v).
  { subst st'. by rewrite (proj1 (split_frame st min max)). }
  rewrite (scale_known_value st' v k); [| by apply consistent_split | done].
  f_equal. apply get_mod_in_range. subst st'.
  rewrite (split_range st min max HN Hne).
  cbn [Range.items Range.set_step Range.set_max Range.set_min Range.array].
  by apply evenly_spaced_lookup.
Qed.

End Splits.

(** **** Inverting positions *)

Section Inverse.

Context {V : Type} `{ToString V}.

Implicit Types st : state V.

(** [invertIndex] on a non-empty domain and a range of finite, distinct
    ends, with every guard decided on the reals. *)
Lemma invertIndex_real st (y lo hi : R) (noRound : bool) :
  (1 <= length (d st))%nat ->
  Range.min (r st) = Num lo -> Range.max (r st) = Num hi -> lo <> hi ->
  let i := (y - lo) / ((hi - lo) / INR (length (d st))) in
  invertIndex y noRound st =
    if bool_decide (hi <= y) then Finite (INR (length (d st)))
    else if bool_decide (y < lo) then Finite 0
    else if noRound then Finite i else Finite (IZR (Zfloor (i + 1 / 2))).
Proof.
  intros HN Hlo Hhi Hne i.
  assert (HNpos : 1 <= INR (length (d st))) by (apply (le_INR 1); lia).
  unfold invertIndex. rewrite Hlo, Hhi. cbn [ToNumber].
  rewrite bool_decide_eq_false_2 by lia.
  cbn [num_sub num_add num_neg num_eq].
  rewrite (bool_decide_eq_false_2 (hi + - lo = 0)) by lra.
  unfold num_ge, num_of_nat. cbn [num_eq num_lt].
  rewrite (num_div_finite (hi + - lo)) by lra.
  rewrite num_div_finite.
  2:{ unfold Rdiv. apply Rmult_integral_contrapositive_currified; [lra |].
      apply Rinv_neq_0_compat. lra. }
  destruct (Rle_dec hi y) as [Hge | Hge].
  - rewrite (bool_decide_eq_true_2 (hi <= y)) by done.
    destruct (Req_dec y hi) as [-> | Hyh].
    + by rewrite bool_decide_eq_true_2.
    + rewrite (bool_decide_eq_false_2 (y = hi)) by done.
      by rewrite (bool_decide_eq_true_2 (hi < y)) by lra.
  - rewrite (bool_decide_eq_false_2 (hi <= y)) by done.
    rewrite (bool_decide_eq_false_2 (y = hi)) by lra.
    rewrite (bool_decide_eq_false_2 (hi < y)) by lra.
    cbn [orb]. destruct (bool_decide (y < lo)); [reflexivity |].
    destruct noRound; reflexivity.
Qed.

(** The quotient [(y - lo) / ((hi - lo) / N)] for [lo <= y < hi]. *)
Lemma inverse_quotient_bounds (y lo hi n : R) :
  1 <= n -> lo <= y < hi ->
  0 <= (y - lo) / ((hi - lo) / n) < n.
Proof.
  intros Hn [Hy1 Hy2].
  replace ((y - lo) / ((hi - lo) / n)) with ((y - lo) * n / (hi - lo))
    by (field; lra).
  split.
  - apply (Rmult_le_reg_r (hi - lo)); [lra |].
    replace ((y - lo) * n / (hi - lo) * (hi - lo)) with ((y - lo) * n)
      by (field; lra).
    nra.
  - apply (Rmult_lt_reg_r (hi - lo)); [lra |].
    replace ((y - lo) * n / (hi - lo) * (hi - lo)) with ((y - lo) * n)
      by (field; lra).
    nra.
Qed.

(** Rounding half up keeps a number of [[0, n)] within [[0, n]]. *)
Lemma round_within (x : R) (n : nat) :
  0 <= x < INR n -> 0 <= IZR (Zfloor (x + 1 / 2)) <= INR n.
Proof.
  intros [Hx0 Hxn]. split.
  - apply (IZR_le 0). apply Zfloor_lub. lra.
  - rewrite INR_IZR_INZ in *. apply IZR_le.
    pose proof (Zfloor_bound (x + 1 / 2)) as [Hfl _].
    assert (Hlt : IZR (Zfloor (x + 1 / 2)) < IZR (Z.of_nat n + 1)).
    { rewrite plus_IZR. lra. }
    apply lt_IZR in Hlt. lia.
Qed.

(** On an increasing range the inverse index is a number of [[0, N]]. *)
Lemma invertIndex_within st (y lo hi : R) (noRound : bool) :
  (1 <= length (d st))%nat ->
  Range.min (r st) = Num lo -> Range.max (r st) = Num hi -> lo < hi ->
  exists q : R,
    invertIndex y noRound st = Finite q /\ 0 <= q <= INR (length (d st)).
Proof.
  intros HN Hlo Hhi Hlt.
  assert (HNpos : 1 <= INR (length (d st))) by (apply (le_INR 1); lia).
  rewrite (invertIndex_real st y lo hi noRound HN Hlo Hhi) by lra.
  case_bool_decide as Hge; [eexists; split; [reflexivity | lra] |].
  case_bool_decide as Hlow; [eexists; split; [reflexivity | lra] |].
  pose proof (inverse_quotient_bounds y lo hi (INR (length (d st))) HNpos) as Hq.
  destruct noRound; eexists; (split; [reflexivity |]).
  - lra.
  - apply round_within. lra.
Qed.

(** X20.  On a non-empty domain and a range with finite, distinct ends,
    the inverse index of any finite position is a number between 0 and
    the domain length [N], whatever [noRound]: positions from [max] on
    have the index [N], which is one past the last index, and positions
    below both ends the index 0.  On a range with [max < min] it is never
    anything but 0 or [N]. *)
Theorem invertIndex_bounds st (y lo hi : R) (noRound : bool) :
  (1 <= length (d st))%nat ->
  Range.min (r st) = Num lo -> Range.max (r st) = Num hi -> lo <> hi ->
  exists q : R,
    invertIndex y noRound st = Finite q /\
    0 <= q <= INR (length (d st)) /\
    (hi <= y -> q = INR (length (d st))) /\
    (y < lo -> y < hi -> q = 0) /\
    (hi < lo -> q = 0 \/ q = INR (length (d st))).
Proof.
  intros HN Hlo Hhi Hne.
  assert (HNpos : 1 <= INR (length (d st))) by (apply (le_INR 1); lia).
  pose proof (invertIndex_real st y lo hi noRound HN Hlo Hhi Hne) as Hreal.
  cbv zeta in Hreal.
  destruct (Rle_dec hi y) as [Hge | Hge].
  { rewrite (bool_decide_eq_true_2 (hi <= y)) in Hreal by done.
    eexists. split; [exact Hreal |].
    split; [lra |]. split; [done |]. split; [lra | by right]. }
  rewrite (bool_decide_eq_false_2 (hi <= y)) in Hreal by done.
  destruct (Rlt_dec y lo) as [Hlow | Hlow].
  { rewrite (bool_decide_eq_true_2 (y < lo)) in Hreal by done.
    eexists. split; [exact Hreal |].
    split; [lra |]. split; [lra |]. split; [done | by left]. }
  destruct (invertIndex_within st y lo hi noRound HN Hlo Hhi) as (q & Hq & Hbounds);
    [lra |].
  exists q. split; [done |]. split; [done |]. repeat split; lra.
Qed.

(** X21.  On an increasing range the inverse index does not decrease
    with the position, rounded or not. *)
Theorem invertIndex_monotone st (y1 y2 lo hi : R) (noRound : bool) :
  (1 <= length (d st))%nat ->
  Range.min (r st) = Num lo -> Range.max (r st) = Num hi -> lo < hi ->
  y1 <= y2 ->
  exists q1 q2 : R,
    invertIndex y1 noRound st = Finite q1 /\
    invertIndex y2 noRound st = Finite q2 /\
    q1 <= q2.
Proof.
  intros HN Hlo Hhi Hlt Hy.
  assert (HNpos : 1 <= INR (length (d st))) by (apply (le_INR 1); lia).
  destruct (invertIndex_within st y1 lo hi noRound HN Hlo Hhi Hlt)
    as (q1 & Hq1 & Hb1).
  destruct (invertIndex_within st y2 lo hi noRound HN Hlo Hhi Hlt)
    as (q2 & Hq2 & Hb2).
  exists q1, q2. split; [done |]. split; [done |].
  rewrite (invertIndex_real st y1 lo hi noRound HN Hlo Hhi) in Hq1 by lra.
  rewrite (invertIndex_real st y2 lo hi noRound HN Hlo Hhi) in Hq2 by lra.
  destruct (Rle_dec hi y2) as [Hge2 | Hge2].
  { rewrite (bool_decide_eq_true_2 (hi <= y2)) in Hq2 by done.
    injection Hq2 as <-. lra. }
  rewrite (bool_decide_eq_false_2 (hi <= y2)) in Hq2 by done.
  rewrite (bool_decide_eq_false_2 (hi <= y1)) in Hq1 by lra.
  destruct (Rlt_dec y1 lo) as [Hlow1 | Hlow1].
  { rewrite (bool_decide_eq_true_2 (y1 < lo)) in Hq1 by done.
    injection Hq1 as <-. lra. }
  rewrite (bool_decide_eq_false_2 (y1 < lo)) in Hq1 by done.
  rewrite (bool_decide_eq_false_2 (y2 < lo)) in Hq2 by lra.
  assert (Hi : (y1 - lo) / ((hi - lo) / INR (length (d st)))
               <= (y2 - lo) / ((hi - lo) / INR (length (d st)))).
  { apply Rmult_le_compat_r; [| lra].
    apply Rlt_le, Rinv_0_lt_compat, Rdiv_lt_0_compat; lra. }
  destruct noRound; injection Hq1 as <-; injection Hq2 as <-; [done |].
  apply IZR_le, Zfloor_le. lra.
Qed.




End Inverse.

(** **** Instances *)

Lemma three_values_d : d three_values = ["a"; "b"; "c"]%string.
Proof. vm_compute. reflexivity. Qed.

Lemma two_values_consistent : consistent two_values.
Proof. apply consistent_domain, consistent_init. Qed.

Lemma three_values_consistent : consistent three_values.
Proof. apply consistent_domain, consistent_init. Qed.

Lemma two_values_length : length (d two_values) = 2%nat.
Proof. by rewrite two_values_d. Qed.


Lemma four_values_length : length (d four_values) = 4%nat.
Proof. by rewrite four_values_d. Qed.


(** The instance of X12: the third of three values on the range [10, 20]
    is given the first range value again. *)
Lemma scale_pairwise_witness :
  scale "c" (snd (range (AnArray [Finite 10; Finite 20]) three_values)) =
    (Num 10, snd (range (AnArray [Finite 10; Finite 20]) three_values)).
Proof.
  destruct (scale_pairwise [Finite 10; Finite 20] "c" 2 three_values) as (y & Hy & _ & Hs).
  - exact three_values_consistent.
  - by rewrite three_values_d.
  - discriminate.
  - cbn in Hy. injection Hy as <-. exact Hs.
Defined.

(** The instance of X13, on three values. *)
Lemma domain_get_set_witness :
  snd (domain (AnArray ["a"; "b"; "c"]%string) three_values) = three_values.
Proof.
  apply (domain_get_set three_values three_values_consistent).
  cbn [domain fst]. by rewrite three_values_d.
Defined.

(** The instance of X24, on a split. *)
Lemma domain_untouched_witness :
  d (run two_values (CallSplit 0 100)) = d two_values /\
  i (run two_values (CallSplit 0 100)) = i two_values.
Proof.
  apply (domain_untouched two_values (CallSplit 0 100)).
  - intros x. discriminate.
  - intros args _. discriminate.
Defined.





(** The instance of X27: one value on [0, 100] with the band fraction one
    half gets the band centre 25, and more than one position. *)
Lemma splitBandedFlushCenter_single_value_witness :
  Range.items (r (splitBandedFlushCenter 0 100 (Num 0.5) (ordinal (Values "a" []))))
    !! 0%nat = Some (Finite 25) /\
  (2 <= length (Range.items
          (r (splitBandedFlushCenter 0%R 100%R (Num (Finite 0.5%R))
                (ordinal (Values "a" []))))))%nat.
Proof.
  destruct (splitBandedFlushCenter_single_value (ordinal (Values "a" [])) 0 100 0.5)
    as (_ & _ & _ & Hfirst & _ & Hmore).
  - by vm_compute.
  - lra.
  - lra.
  - split.
    + rewrite Hfirst. do 2 f_equal. lra.
    + apply Hmore. lra.
Defined.

(** The instance of X28: a split on an empty domain keeps the range
    [10, 20]. *)
Lemma split_empty_domain_witness :
  Range.items
    (r (split 0 100
          (snd (range (Values (Finite 10) [Finite 20]) (init : state string))))) =
    [Finite 10; Finite 20].
Proof.
  destruct (split_empty_domain
              (snd (range (Values (Finite 10) [Finite 20]) (init : state string)))
              0 100 Undefined) as [(Hitems & _) _].
  - reflexivity.
  - lra.
  - exact Hitems.
Defined.


(** The instance of X19: the second of two values split on [0, 100]. *)
Lemma scale_after_split_witness :
  scale "b" (split 0 100 two_values) = (Num 75, split 0 100 two_values).
Proof.
  rewrite (scale_after_split two_values 0 100 "b" 1 two_values_consistent).
  - rewrite two_values_length. cbn [INR]. repeat first [lra | f_equal].
  - by rewrite two_values_d.
  - lra.
Defined.

Lemma split_four_values_ends :
  (1 <= length (d (split 0%R 100%R four_values)))%nat /\
  Range.min (r (split 0 100 four_values)) = Num 0 /\
  Range.max (r (split 0 100 four_values)) = Num 100.
Proof.
  split.
  - rewrite (proj1 (split_frame four_values 0 100)), four_values_length. lia.
  - rewrite (split_range four_values 0 100); [done | | lra].
    rewrite four_values_length. lia.
Qed.

(** The instance of X20: a position beyond the range inverts to 4. *)
Lemma invertIndex_bounds_witness :
  exists q : R,
    invertIndex 250 false (split 0 100 four_values) = Finite q /\ q = 4.
Proof.
  destruct split_four_values_ends as (HN & Hmin & Hmax).
  destruct (invertIndex_bounds (split 0 100 four_values) 250 0 100 false
              HN Hmin Hmax) as (q & Hq & _ & Hmost & _); [lra |].
  exists q. split; [done |].
  rewrite (proj1 (split_frame four_values 0 100)), four_values_length in Hmost.
  cbn [INR] in Hmost. rewrite Hmost by lra. lra.
Defined.

(** The instance of X21: the positions 12 and 13. *)
Lemma invertIndex_monotone_witness :
  exists q1 q2 : R,
    invertIndex 12 true (split 0 100 four_values) = Finite q1 /\
    invertIndex 13 true (split 0 100 four_values) = Finite q2 /\
    q1 <= q2.
Proof.
  destruct split_four_values_ends as (HN & Hmin & Hmax).
  apply (invertIndex_monotone (split 0 100 four_values) 12 13 0 100 true
           HN Hmin Hmax); lra.
Defined.



End OrdinalExtra.
